(** * slife.py: a slime-mold simulation on a sparse grid

    Shallow embedding of [src/slife.py] and the properties of its
    specification.

    Modelling conventions.
    - Python numbers (the [int] literals of the seed and the [float]s the
      rules produce) are exact rationals [Qc]: [0.1] is [1/10], [1.5] is
      [3/2], [0.25] is [1/4].  The theorems are about the arithmetic the
      code writes down.  Python rounds every quotient and product to
      binary64: the last part of the file runs the Mold rule over the
      binary64 numbers of the kernel (module [B64]) and shows where an exact
      sum and a rounded one part.
    - A Python [dict] iterates in insertion order, and the order decides
      which [KeyError] is raised first.  A dictionary keyed by coordinates is
      therefore an association list in insertion order ([Dict.t]).
    - The per-site state [{"mold", "food", "camp", "refractory"}] always has
      exactly these four keys: it is the record [Site].
    - [d[k]] on a missing key raises [KeyError]: fallible code lives in the
      [result] monad.  [Simulation.step] and [Simulation.run] mutate [self],
      also when they raise: they pass the simulation state explicitly and
      return it next to the outcome.
    - The rules write into the state dictionaries of the next grid only, and
      these are created afresh in every step.  A state dictionary reachable
      from the current grid or from a snapshot ([current_grid.copy()] is a
      shallow copy) is never mutated, so grids and snapshots are values. *)

From Stdlib Require Import ZArith List QArith Qcanon Bool Lia Permutation.
Import ListNotations.

(** ** Numbers *)

Abbreviation number := Qc.

Definition num_of_Z (z : Z) : number := Q2Qc (inject_Z z).
Definition num_frac (n : Z) (d : positive) : number := Q2Qc (n # d).
Definition num_of_nat (n : nat) : number := num_of_Z (Z.of_nat n).

(** [x == y], [x < y] and [x >= y] on Python numbers. *)
Definition num_eqb (x y : number) : bool := Qc_eq_bool x y.
Definition num_ltb (x y : number) : bool :=
  match (x ?= y)%Qc with Lt => true | _ => false end.
Definition num_geb (x y : number) : bool := negb (num_ltb x y).

(** ** Coordinates *)

Definition coord : Type := (Z * Z)%type.

Definition coord_eqb (a b : coord) : bool :=
  (fst a =? fst b)%Z && (snd a =? snd b)%Z.

(** ** Exceptions *)

Inductive exn : Type :=
| KeyError (key : coord)
| NotImplementedError.

Inductive result (A : Type) : Type :=
| Ok (a : A)
| Raise (e : exn).

Arguments Ok {A} a.
Arguments Raise {A} e.

Definition bind {A B : Type} (m : result A) (k : A -> result B) : result B :=
  match m with
  | Ok a => k a
  | Raise e => Raise e
  end.

Notation "x <- m ;; k" := (bind m (fun x => k))
  (at level 61, m at next level, right associativity).

(** A [for] loop over [l] whose body updates an accumulator and may raise. *)
Fixpoint for_each {S A : Type} (body : S -> A -> result S) (l : list A) (s : S)
  : result S :=
  match l with
  | [] => Ok s
  | a :: l' => s' <- body s a ;; for_each body l' s'
  end.

(** A comprehension [[f(a) for a in l]] whose element expression may raise. *)
Fixpoint map_result {A B : Type} (f : A -> result B) (l : list A)
  : result (list B) :=
  match l with
  | [] => Ok []
  | a :: l' => b <- f a ;; bs <- map_result f l' ;; Ok (b :: bs)
  end.

(** ** Python dictionaries keyed by coordinates *)

Module Dict.
Section Ops.
Context {V : Type}.

Definition t : Type := list (coord * V).

Definition empty : t := [].

Fixpoint find (k : coord) (d : t) : option V :=
  match d with
  | [] => None
  | (k', v) :: d' => if coord_eqb k' k then Some v else find k d'
  end.

(** [k in d] *)
Definition mem (k : coord) (d : t) : bool :=
  match find k d with Some _ => true | None => false end.

(** [d[k]] *)
Definition get (k : coord) (d : t) : result V :=
  match find k d with
  | Some v => Ok v
  | None => Raise (KeyError k)
  end.

(** [d[k] = v]: an existing key keeps its place, a new one goes last. *)
Fixpoint set (k : coord) (v : V) (d : t) : t :=
  match d with
  | [] => [(k, v)]
  | (k', v') :: d' =>
      if coord_eqb k' k then (k', v) :: d' else (k', v') :: set k v d'
  end.

(** [del d[k]] *)
Fixpoint del (k : coord) (d : t) : result t :=
  match d with
  | [] => Raise (KeyError k)
  | (k', v') :: d' =>
      if coord_eqb k' k then Ok d'
      else d'' <- del k d' ;; Ok ((k', v') :: d'')
  end.

Definition keys (d : t) : list coord := map fst d.

(** No key occurs twice: what every Python dictionary satisfies. *)
Definition wf (d : t) : Prop := NoDup (keys d).
End Ops.
Arguments t : clear implicits.
End Dict.

(** ** Site state and configuration *)

Record Site : Type := mkSite {
  mold : number;
  food : number;
  camp : number;
  refractory : number
}.

Definition Grid : Type := Dict.t Site.

Record Config : Type := mkConfig {
  grid_size : number;
  initial_cells : number;
  food_capacity : number;
  food_consumption_rate : number;
  camp_decay : number;
  amplification_factor : number;
  refractory_period : number
}.

Definition CONFIG : Config := {|
  grid_size := num_of_Z 50;
  initial_cells := num_of_Z 100;
  food_capacity := num_of_Z 5;
  food_consumption_rate := num_frac 1 10;
  camp_decay := num_frac 1 10;
  amplification_factor := num_frac 3 2;
  refractory_period := num_of_Z 5
|}.

(** The literal [{"mold": 0, "food": 0, "camp": 0, "refractory": 0}]. *)
Definition zero_site : Site :=
  {| mold := 0%Qc; food := 0%Qc; camp := 0%Qc; refractory := 0%Qc |}.

(** [all(v == 0 for v in state.values())] *)
Definition all_zero (state : Site) : bool :=
  num_eqb (mold state) 0%Qc && num_eqb (food state) 0%Qc
  && num_eqb (camp state) 0%Qc && num_eqb (refractory state) 0%Qc.

(** [next_grid[k][field] += x]: the entry must exist; its state is updated
    in place. *)
Definition update (k : coord) (f : Site -> Site) (g : Grid) : result Grid :=
  state <- Dict.get k g ;; Ok (Dict.set k (f state) g).

Definition add_mold (x : number) (s : Site) : Site :=
  {| mold := (mold s + x)%Qc; food := food s; camp := camp s;
     refractory := refractory s |}.
Definition add_camp (x : number) (s : Site) : Site :=
  {| mold := mold s; food := food s; camp := (camp s + x)%Qc;
     refractory := refractory s |}.
Definition sub_food (x : number) (s : Site) : Site :=
  {| mold := mold s; food := (food s - x)%Qc; camp := camp s;
     refractory := refractory s |}.

(** ** GridUtils *)

Module GridUtils.

Definition neighbors (c : coord) : list coord :=
  let '(x, y) := c in
  [(x - 1, y); (x + 1, y); (x, y - 1); (x, y + 1)]%Z.

Definition prune_empty_sites (grid : Grid) : result Grid :=
  let keys_to_delete :=
    map fst (filter (fun item => all_zero (snd item)) grid) in
  for_each (fun g key => Dict.del key g) keys_to_delete grid.

Definition expand_grid (grid : Grid) : Grid :=
  let new_cells :=
    flat_map
      (fun c => filter (fun n => negb (Dict.mem n grid)) (neighbors c))
      (Dict.keys grid) in
  fold_left (fun g cell => Dict.set cell zero_site g) new_cells grid.

End GridUtils.

(** ** Behaviors *)

Inductive Behavior : Type :=
| MoldBehavior
| FoodBehavior
| CampBehavior.

(** The sort key [(-grid[neighbor]["camp"], grid[neighbor]["mold"])]. *)
Definition rank_key (grid : Grid) (neighbor : coord) : result (number * number) :=
  s <- Dict.get neighbor grid ;; Ok ((- camp s)%Qc, mold s).

(** [<] on pairs of numbers: the first components decide unless equal. *)
Definition key_ltb (a b : number * number) : bool :=
  if num_eqb (fst a) (fst b) then num_ltb (snd a) (snd b)
  else num_ltb (fst a) (fst b).

(** [sorted] is stable: an element is put before the first element that is
    not smaller than it, so equal keys keep their order. *)
Fixpoint insert_ranked (x : (number * number) * coord)
  (l : list ((number * number) * coord)) : list ((number * number) * coord) :=
  match l with
  | [] => [x]
  | y :: l' =>
      if key_ltb (fst y) (fst x) then y :: insert_ranked x l' else x :: l
  end.

Definition sorted_by_key (l : list ((number * number) * coord)) : list coord :=
  map snd (fold_right insert_ranked [] l).

Definition ranked_neighbors (grid : Grid) (c : coord) : result (list coord) :=
  keyed <- map_result (fun n => k <- rank_key grid n ;; Ok (k, n))
             (GridUtils.neighbors c) ;;
  Ok (sorted_by_key keyed).

(** [sum(grid[neighbor]["camp"] for neighbor in neighbors)] *)
Definition total_camp_of (grid : Grid) (neighbors : list coord) : result number :=
  camps <- map_result (fun n => s <- Dict.get n grid ;; Ok (camp s)) neighbors ;;
  Ok (fold_left Qcplus camps 0%Qc).

(** The weight of one neighbor in [MoldBehavior.process_site]. *)
Definition weight (grid : Grid) (total_camp : number) (neighbors : list coord)
  (neighbor : coord) : result number :=
  if num_ltb 0%Qc total_camp
  then s <- Dict.get neighbor grid ;; Ok (camp s / total_camp)%Qc
  else Ok (1 / num_of_nat (length neighbors))%Qc.

Definition is_process_site (b : Behavior) (state : Site) : bool :=
  match b with
  | MoldBehavior => num_ltb 0%Qc (mold state)
  | FoodBehavior =>
      num_ltb 0%Qc (mold state)
      && num_geb (food state) (food_consumption_rate CONFIG)
  | CampBehavior => true
  end.

Definition process_site (b : Behavior) (grid next_grid : Grid) (c : coord)
  (state : Site) : result Grid :=
  match b with
  | MoldBehavior =>
      let total_mold := mold state in
      neighbors <- ranked_neighbors grid c ;;
      total_camp <- total_camp_of grid neighbors ;;
      for_each
        (fun next neighbor =>
           w <- weight grid total_camp neighbors neighbor ;;
           update neighbor (add_mold (total_mold * w)%Qc) next)
        neighbors next_grid
  | FoodBehavior =>
      let food_consumed := (food_consumption_rate CONFIG * mold state)%Qc in
      next <- update c
                (add_camp (food_consumed * amplification_factor CONFIG)%Qc)
                next_grid ;;
      update c (sub_food food_consumed) next
  | CampBehavior => Raise NotImplementedError
  end.

(** [new_camp[neighbor] += x], after [new_camp[neighbor] = 0] for a new key. *)
Definition accumulate (neighbor : coord) (x : number) (new_camp : Dict.t number)
  : result (Dict.t number) :=
  let new_camp :=
    if Dict.mem neighbor new_camp then new_camp
    else Dict.set neighbor 0%Qc new_camp in
  old <- Dict.get neighbor new_camp ;;
  Ok (Dict.set neighbor (old + x)%Qc new_camp).

(** The first loop of [CampBehavior.apply]. *)
Definition camp_spread (grid : Grid) : result (Dict.t number) :=
  for_each
    (fun new_camp item =>
       let camp := (camp (snd item) * (1 - camp_decay CONFIG))%Qc in
       for_each
         (fun new_camp neighbor =>
            accumulate neighbor (camp * num_frac 1 4)%Qc new_camp)
         (GridUtils.neighbors (fst item)) new_camp)
    grid Dict.empty.

Definition apply (b : Behavior) (grid next_grid : Grid) : result Grid :=
  match b with
  | CampBehavior =>
      new_camp <- camp_spread grid ;;
      for_each (fun next item => update (fst item) (add_camp (snd item)) next)
        new_camp next_grid
  | _ =>
      for_each
        (fun next item =>
           if is_process_site b (snd item)
           then process_site b grid next (fst item) (snd item)
           else Ok next)
        grid next_grid
  end.

(** ** Simulation *)

Record Simulation : Type := mkSimulation {
  current_grid : Grid;
  history : list Grid
}.

Definition initialize_grid : Grid :=
  let initial_site :=
    {| mold := initial_cells CONFIG; food := food_capacity CONFIG;
       camp := 0%Qc; refractory := 0%Qc |} in
  Dict.set (0, 0)%Z initial_site Dict.empty.

(** [Simulation.__init__] *)
Definition new_simulation : Simulation :=
  {| current_grid := initialize_grid; history := [] |}.

Definition behaviors : list Behavior :=
  [MoldBehavior; FoodBehavior; CampBehavior].

(** The comprehension that builds [next_grid] in [step]. *)
Definition fresh_next_grid (grid : Grid) : Grid :=
  map (fun item => (fst item, zero_site)) grid.

(** The loop [for behavior in self.behaviors(): behavior.apply(...)]. *)
Definition apply_behaviors (grid next_grid : Grid) : result Grid :=
  for_each (fun next b => apply b grid next) behaviors next_grid.

(** [step] expands [self.current_grid] in place before the behaviors run, so
    the expansion stays when a behavior raises. *)
Definition step (self : Simulation) : Simulation * result unit :=
  let next_grid := fresh_next_grid (current_grid self) in
  let self :=
    {| current_grid := GridUtils.expand_grid (current_grid self);
       history := history self |} in
  match
    next <- apply_behaviors (current_grid self) next_grid ;;
    GridUtils.prune_empty_sites next
  with
  | Ok next => ({| current_grid := next; history := history self |}, Ok tt)
  | Raise e => (self, Raise e)
  end.

Fixpoint run_loop (n : nat) (self : Simulation) : Simulation * result unit :=
  match n with
  | O => (self, Ok tt)
  | S n' =>
      let self :=
        {| current_grid := current_grid self;
           history := history self ++ [current_grid self] |} in
      match step self with
      | (self, Ok _) => run_loop n' self
      | (self, Raise e) => (self, Raise e)
      end
  end.

(** [run(steps)]: [range(steps)] is empty for a negative [steps]. *)
Definition run (steps : Z) (self : Simulation) : Simulation * result unit :=
  run_loop (Z.to_nat steps) self.

(** * Properties *)

Local Open Scope Qc_scope.

(** ** Numbers and coordinates *)

Lemma num_eqb_eq (x y : number) : num_eqb x y = true <-> x = y.
Proof.
  unfold num_eqb, Qc_eq_bool. destruct (Qc_eq_dec x y); split; congruence.
Qed.

Lemma num_ltb_lt (x y : number) : num_ltb x y = true <-> x < y.
Proof.
  unfold num_ltb. rewrite Qclt_alt.
  destruct (x ?= y); split; congruence.
Qed.

Lemma num_ltb_ge (x y : number) : num_ltb x y = false <-> y <= x.
Proof.
  split; intros H.
  - apply Qcnot_lt_le. intros L. apply num_ltb_lt in L. congruence.
  - destruct (num_ltb x y) eqn:E; [|reflexivity].
    apply num_ltb_lt in E. now apply Qcle_not_lt in H.
Qed.

Lemma num_ltb_irrefl (x : number) : num_ltb x x = false.
Proof. apply num_ltb_ge, Qcle_refl. Qed.

Lemma coord_eqb_eq (a b : coord) : coord_eqb a b = true <-> a = b.
Proof.
  destruct a as [ax ay], b as [bx b_y]. unfold coord_eqb. cbn [fst snd].
  rewrite andb_true_iff, !Z.eqb_eq. split.
  - intros [-> ->]. reflexivity.
  - intros E. injection E as -> ->. split; reflexivity.
Qed.

Lemma coord_eqb_refl (a : coord) : coord_eqb a a = true.
Proof. now apply coord_eqb_eq. Qed.

Lemma coord_eqb_neq (a b : coord) : coord_eqb a b = false <-> a <> b.
Proof.
  rewrite <- coord_eqb_eq. destruct (coord_eqb a b); split; congruence.
Qed.

Lemma coord_eqb_sym (a b : coord) : coord_eqb a b = coord_eqb b a.
Proof.
  destruct (coord_eqb b a) eqn:E.
  - apply coord_eqb_eq in E. subst. apply coord_eqb_refl.
  - apply coord_eqb_neq in E. apply coord_eqb_neq. congruence.
Qed.

(** Closed equations between numbers, and between structures of numbers:
    a [Qc] carries a proof that its fraction is reduced, so the two sides
    are compared through their fractions. *)
Ltac num_eq := apply Qc_is_canon; vm_compute; reflexivity.
Ltac struct_eq :=
  vm_compute; repeat first [reflexivity | num_eq | f_equal].

(** ** The result monad *)

Lemma bind_Ok {A B : Type} (m : result A) (k : A -> result B) (b : B) :
  (x <- m ;; k x) = Ok b -> exists a, m = Ok a /\ k a = Ok b.
Proof. destruct m as [a|e]; cbn; [eauto | discriminate]. Qed.

Lemma for_each_ext {S A : Type} (f g : S -> A -> result S) (l : list A) (s : S) :
  (forall s a, In a l -> f s a = g s a) -> for_each f l s = for_each g l s.
Proof.
  revert s. induction l as [|a l IH]; intros s H; cbn; [reflexivity|].
  rewrite (H s a) by (now left).
  destruct (g s a); cbn; [|reflexivity]. apply IH. intros; apply H; now right.
Qed.

Lemma map_result_pure {A B : Type} (f : A -> result B) (g : A -> B)
  (l : list A) :
  (forall a, In a l -> f a = Ok (g a)) -> map_result f l = Ok (map g l).
Proof.
  induction l as [|a l IH]; intros H; cbn; [reflexivity|].
  rewrite (H a) by (now left). cbn.
  rewrite IH by (intros; apply H; now right). reflexivity.
Qed.

(** ** Dictionaries *)

Section DictFacts.
Context {V : Type}.
Implicit Types (d : Dict.t V) (k : coord) (v : V).

Lemma find_set d k k' v :
  Dict.find k (Dict.set k' v d)
  = if coord_eqb k' k then Some v else Dict.find k d.
Proof.
  induction d as [|[k0 v0] d IH]; cbn.
  - destruct (coord_eqb k' k); reflexivity.
  - destruct (coord_eqb k0 k') eqn:E0; cbn.
    + apply coord_eqb_eq in E0. subst k0.
      destruct (coord_eqb k' k); reflexivity.
    + destruct (coord_eqb k0 k) eqn:E1; [|exact IH].
      apply coord_eqb_eq in E1. subst k0.
      rewrite coord_eqb_sym, E0. reflexivity.
Qed.

Lemma mem_find d k : Dict.mem k d = true <-> exists v, Dict.find k d = Some v.
Proof.
  unfold Dict.mem. destruct (Dict.find k d); split; eauto.
  - discriminate.
  - intros [v E]. discriminate.
Qed.

Lemma mem_false_find d k : Dict.mem k d = false <-> Dict.find k d = None.
Proof.
  unfold Dict.mem. destruct (Dict.find k d); split; congruence.
Qed.

Lemma mem_keys d k : Dict.mem k d = true <-> In k (Dict.keys d).
Proof.
  unfold Dict.mem. induction d as [|[k0 v0] d IH]; cbn.
  - split; [discriminate | tauto].
  - destruct (coord_eqb k0 k) eqn:E.
    + apply coord_eqb_eq in E. tauto.
    + apply coord_eqb_neq in E. rewrite IH. split; [tauto|].
      intros [?|?]; [contradiction | assumption].
Qed.

Lemma find_In d k v : Dict.find k d = Some v -> In (k, v) d.
Proof.
  induction d as [|[k0 v0] d IH]; cbn; [discriminate|].
  destruct (coord_eqb k0 k) eqn:E.
  - apply coord_eqb_eq in E. intros [= ->]. subst. now left.
  - intros H. right. now apply IH.
Qed.

Lemma In_find d k v : Dict.wf d -> In (k, v) d -> Dict.find k d = Some v.
Proof.
  unfold Dict.wf. induction d as [|[k0 v0] d IH]; cbn; [tauto|].
  intros N [E|I].
  - injection E as -> ->. now rewrite coord_eqb_refl.
  - inversion N as [|? ? N0 N1]; subst.
    destruct (coord_eqb k0 k) eqn:E.
    + apply coord_eqb_eq in E. subst k0. exfalso. apply N0.
      change k with (fst (k, v)). now apply in_map.
    + now apply IH.
Qed.

Lemma keys_set d k v :
  Dict.keys (Dict.set k v d)
  = if Dict.mem k d then Dict.keys d else Dict.keys d ++ [k].
Proof.
  unfold Dict.mem, Dict.keys.
  induction d as [|[k0 v0] d IH]; cbn; [reflexivity|].
  destruct (coord_eqb k0 k) eqn:E; cbn; [reflexivity|].
  rewrite IH. destruct (Dict.find k d); reflexivity.
Qed.

Lemma wf_set d k v : Dict.wf d -> Dict.wf (Dict.set k v d).
Proof.
  unfold Dict.wf. intros N. rewrite keys_set.
  destruct (Dict.mem k d) eqn:M; [assumption|].
  apply NoDup_app; [assumption | repeat constructor; cbn; tauto |].
  intros x I [<-|[]]. apply mem_keys in I. congruence.
Qed.

Lemma wf_tail (x : coord * V) d : Dict.wf (x :: d) -> Dict.wf d.
Proof. unfold Dict.wf. cbn. now inversion 1. Qed.

Lemma wf_head_fresh k v d : Dict.wf ((k, v) :: d) -> Dict.find k d = None.
Proof.
  unfold Dict.wf. cbn. inversion 1 as [|? ? N0 N1]; subst.
  apply mem_false_find. destruct (Dict.mem k d) eqn:M; [|reflexivity].
  apply mem_keys in M. contradiction.
Qed.
End DictFacts.

(** ** Sums of numbers *)

Definition qsum (l : list number) : number := fold_right Qcplus 0 l.

(** The total amount of mold on a grid. *)
Definition total_mold (g : Grid) : number :=
  qsum (map (fun item => mold (snd item)) g).

Lemma qsum_nil : qsum [] = 0.
Proof. reflexivity. Qed.

Lemma qsum_cons (x : number) (l : list number) : qsum (x :: l) = x + qsum l.
Proof. reflexivity. Qed.

Lemma total_mold_cons (item : coord * Site) (g : Grid) :
  total_mold (item :: g) = mold (snd item) + total_mold g.
Proof. reflexivity. Qed.

Arguments qsum : simpl never.
Arguments total_mold : simpl never.

Lemma fold_left_qsum (l : list number) (a : number) :
  fold_left Qcplus l a = a + qsum l.
Proof.
  revert a. induction l as [|x l IH]; intros a; cbn [fold_left].
  - rewrite qsum_nil. ring.
  - rewrite IH, qsum_cons. ring.
Qed.

Lemma qsum_map_scale {A : Type} (f : A -> number) (m : number) (l : list A) :
  qsum (map (fun a => m * f a) l) = m * qsum (map f l).
Proof.
  induction l as [|a l IH]; cbn [map].
  - rewrite qsum_nil. ring.
  - rewrite !qsum_cons, IH. ring.
Qed.

Lemma qsum_map_div {A : Type} (f : A -> number) (t : number) (l : list A) :
  qsum (map (fun a => f a / t) l) = qsum (map f l) / t.
Proof.
  unfold Qcdiv. induction l as [|a l IH]; cbn [map].
  - rewrite qsum_nil. ring.
  - rewrite !qsum_cons, IH. ring.
Qed.

Lemma qsum_map_zero {A : Type} (f : A -> number) (l : list A) :
  (forall a, In a l -> f a = 0) -> qsum (map f l) = 0.
Proof.
  induction l as [|a l IH]; intros H; cbn [map]; [reflexivity|].
  rewrite qsum_cons, (H a) by (now left).
  rewrite IH by (intros; apply H; now right). ring.
Qed.

(** ** Writes into the next grid *)

Lemma update_Ok (k : coord) (f : Site -> Site) (g : Grid) (s : Site) :
  Dict.find k g = Some s -> update k f g = Ok (Dict.set k (f s) g).
Proof. intros E. unfold update, Dict.get. now rewrite E. Qed.

Lemma update_inv (k : coord) (f : Site -> Site) (g g' : Grid) :
  update k f g = Ok g' ->
  exists s, Dict.find k g = Some s /\ g' = Dict.set k (f s) g.
Proof.
  unfold update, Dict.get. destruct (Dict.find k g) as [s|]; cbn.
  - intros [= <-]. eauto.
  - discriminate.
Qed.

Lemma total_mold_set (k : coord) (v s : Site) (g : Grid) :
  Dict.find k g = Some s ->
  total_mold (Dict.set k v g) = total_mold g + (mold v - mold s).
Proof.
  induction g as [|[k0 s0] g IH]; cbn [Dict.find Dict.set]; [discriminate|].
  destruct (coord_eqb k0 k).
  - intros [= ->]. rewrite !total_mold_cons. cbn [snd]. ring.
  - intros E. rewrite !total_mold_cons, (IH E). ring.
Qed.

Lemma total_mold_add (k : coord) (x : number) (g g' : Grid) :
  update k (add_mold x) g = Ok g' -> total_mold g' = total_mold g + x.
Proof.
  intros H. apply update_inv in H as (s & E & ->).
  rewrite (total_mold_set _ _ _ _ E). cbn [add_mold mold]. ring.
Qed.

(** A loop of writes [next_grid[key a] := act a (next_grid[key a])]. *)
Section Updates.
Context {A : Type} (key : A -> coord) (act : A -> Site -> Site).

Definition updates (l : list A) (next : Grid) : result Grid :=
  for_each (fun nx a => update (key a) (act a) nx) l next.

(** What the loop does to the state stored under [k]. *)
Definition effect (k : coord) (l : list A) (s : Site) : Site :=
  fold_left (fun s a => if coord_eqb (key a) k then act a s else s) l s.

Lemma updates_Ok (l : list A) (next : Grid) :
  (forall a, In a l -> Dict.mem (key a) next = true) ->
  exists next',
    updates l next = Ok next'
    /\ Dict.keys next' = Dict.keys next
    /\ forall k, Dict.find k next' = option_map (effect k l) (Dict.find k next).
Proof.
  unfold updates. revert next.
  induction l as [|a l IH]; intros next H; cbn.
  - exists next. repeat split. intros k. now destruct (Dict.find k next).
  - destruct (proj1 (mem_find next (key a)) (H a (or_introl eq_refl)))
      as [s E].
    rewrite (update_Ok _ _ _ _ E). cbn.
    assert (K : Dict.keys (Dict.set (key a) (act a s) next) = Dict.keys next).
    { rewrite keys_set, (H a) by (now left). reflexivity. }
    destruct (IH (Dict.set (key a) (act a s) next)) as (next' & R & K' & F).
    { intros a' I. apply mem_keys. rewrite K. apply mem_keys.
      apply H. now right. }
    exists next'. split; [exact R|]. split; [congruence|].
    intros k. rewrite F, find_set. unfold effect.
    destruct (coord_eqb (key a) k) eqn:Ek.
    + pose proof (proj1 (coord_eqb_eq _ _) Ek) as <-. rewrite E.
      cbn [option_map fold_left]. rewrite Ek. reflexivity.
    + destruct (Dict.find k next); cbn [option_map fold_left];
        [rewrite Ek|]; reflexivity.
Qed.

Lemma updates_keys (l : list A) (next next' : Grid) :
  updates l next = Ok next' ->
  Dict.keys next' = Dict.keys next
  /\ forall a, In a l -> Dict.mem (key a) next = true.
Proof.
  unfold updates. revert next.
  induction l as [|a l IH]; intros next; cbn.
  - intros [= <-]. split; [reflexivity | contradiction].
  - intros H. apply bind_Ok in H as (n1 & U & R).
    apply update_inv in U as (s & E & ->).
    assert (M : Dict.mem (key a) next = true) by (apply mem_find; eauto).
    assert (K : Dict.keys (Dict.set (key a) (act a s) next) = Dict.keys next).
    { rewrite keys_set, M. reflexivity. }
    destruct (IH _ R) as [K' M']. split; [congruence|].
    intros a' [<-|I]; [exact M|].
    apply mem_keys. rewrite <- K. apply mem_keys. now apply M'.
Qed.

Lemma effect_absent (k : coord) (l : list A) (s : Site) :
  ~ In k (map key l) -> effect k l s = s.
Proof.
  unfold effect. revert s. induction l as [|a l IH]; intros s N; cbn.
  - reflexivity.
  - cbn in N. destruct (coord_eqb (key a) k) eqn:E.
    + apply coord_eqb_eq in E. tauto.
    + apply IH. tauto.
Qed.

Lemma effect_once (k : coord) (l : list A) (a : A) (s : Site) :
  NoDup (map key l) -> In a l -> key a = k -> effect k l s = act a s.
Proof.
  unfold effect. revert s. induction l as [|a' l IH]; intros s N I E; cbn.
  - contradiction.
  - cbn in N. inversion N as [|? ? N0 N1]; subst.
    destruct I as [->|I].
    + rewrite coord_eqb_refl. apply effect_absent. exact N0.
    + destruct (coord_eqb (key a') (key a)) eqn:E'.
      * apply coord_eqb_eq in E'. exfalso. apply N0. rewrite E'.
        now apply in_map.
      * now apply IH.
Qed.
End Updates.

(** ** Neighbors *)

Lemma neighbors_length (c : coord) : length (GridUtils.neighbors c) = 4%nat.
Proof. destruct c. reflexivity. Qed.

Lemma neighbors_NoDup (c : coord) : NoDup (GridUtils.neighbors c).
Proof.
  destruct c as [x y]. cbn.
  repeat constructor; cbn; intros H;
    repeat (destruct H as [H|H]; [injection H; lia|]); exact H.
Qed.

Lemma neighbors_irrefl (c : coord) : ~ In c (GridUtils.neighbors c).
Proof.
  destruct c as [x y]. cbn. intros H.
  repeat (destruct H as [H|H]; [injection H; lia|]). exact H.
Qed.

(** ** Ranking *)

(** The state read by [grid[k]] when the key is present. *)
Definition site_at (g : Grid) (k : coord) : Site :=
  match Dict.find k g with Some s => s | None => zero_site end.

Lemma get_site_at (g : Grid) (k : coord) :
  Dict.mem k g = true -> Dict.get k g = Ok (site_at g k).
Proof.
  unfold Dict.mem, Dict.get, site_at. now destruct (Dict.find k g).
Qed.

Lemma insert_ranked_perm x l : Permutation (insert_ranked x l) (x :: l).
Proof.
  induction l as [|y l IH]; cbn; [reflexivity|].
  destruct (key_ltb (fst y) (fst x)); [|reflexivity].
  rewrite IH. apply perm_swap.
Qed.

Lemma sorted_by_key_perm l : Permutation (sorted_by_key l) (map snd l).
Proof.
  unfold sorted_by_key. apply Permutation_map.
  induction l as [|x l IH]; cbn; [reflexivity|].
  rewrite insert_ranked_perm. now constructor.
Qed.

Lemma ranked_neighbors_Ok (grid : Grid) (c : coord) :
  (forall n, In n (GridUtils.neighbors c) -> Dict.mem n grid = true) ->
  exists l, ranked_neighbors grid c = Ok l
            /\ Permutation l (GridUtils.neighbors c).
Proof.
  intros H. unfold ranked_neighbors.
  rewrite (map_result_pure _
             (fun n => ((- camp (site_at grid n), mold (site_at grid n)), n))).
  - cbn. eexists. split; [reflexivity|].
    rewrite sorted_by_key_perm, map_map. cbn. now rewrite map_id.
  - intros n I. unfold rank_key. rewrite (get_site_at _ _ (H n I)). reflexivity.
Qed.

(** ** The Mold rule at one site *)

(** The weight [MoldBehavior.process_site] gives to [neighbor], as a
    function of the ranked neighbor list. *)
Definition weight_of (grid : Grid) (l : list coord) (neighbor : coord) : number :=
  let total_camp := fold_left Qcplus (map (fun n => camp (site_at grid n)) l) 0 in
  if num_ltb 0 total_camp then camp (site_at grid neighbor) / total_camp
  else 1 / num_of_nat (length l).

Lemma total_camp_of_Ok (grid : Grid) (l : list coord) :
  (forall n, In n l -> Dict.mem n grid = true) ->
  total_camp_of grid l
  = Ok (fold_left Qcplus (map (fun n => camp (site_at grid n)) l) 0).
Proof.
  intros H. unfold total_camp_of.
  rewrite (map_result_pure _ (fun n => camp (site_at grid n))); [reflexivity|].
  intros n I. rewrite (get_site_at _ _ (H n I)). reflexivity.
Qed.

Lemma weight_Ok (grid : Grid) (l : list coord) (n : coord) :
  Dict.mem n grid = true ->
  weight grid (fold_left Qcplus (map (fun n => camp (site_at grid n)) l) 0) l n
  = Ok (weight_of grid l n).
Proof.
  intros M. unfold weight, weight_of. cbv zeta.
  destruct (num_ltb 0 _); [|reflexivity].
  rewrite (get_site_at _ _ M). reflexivity.
Qed.

Lemma weights_sum (grid : Grid) (l : list coord) :
  length l = 4%nat -> qsum (map (weight_of grid l) l) = 1.
Proof.
  intros L. unfold weight_of. cbv zeta.
  set (tc := fold_left Qcplus _ 0).
  destruct (num_ltb 0 tc) eqn:E.
  - apply num_ltb_lt in E.
    rewrite (qsum_map_div (fun n => camp (site_at grid n)) tc l).
    assert (T : qsum (map (fun n => camp (site_at grid n)) l) = tc).
    { unfold tc. rewrite fold_left_qsum. ring. }
    rewrite T. field. intros Z. rewrite Z in E. now apply Qclt_not_eq in E.
  - rewrite L.
    destruct l as [|a [|b [|c [|d [|]]]]]; try discriminate.
    cbn [map]. rewrite !qsum_cons, qsum_nil. num_eq.
Qed.

Lemma process_site_mold (grid next : Grid) (c : coord) (s : Site)
  (l : list coord) :
  ranked_neighbors grid c = Ok l ->
  (forall n, In n l -> Dict.mem n grid = true) ->
  process_site MoldBehavior grid next c s
  = updates (fun n => n) (fun n => add_mold (mold s * weight_of grid l n)) l next.
Proof.
  intros R H. cbn [process_site]. rewrite R. cbn [bind].
  rewrite (total_camp_of_Ok _ _ H). cbn [bind]. unfold updates.
  apply for_each_ext. intros nx n I. rewrite (weight_Ok _ _ _ (H n I)).
  reflexivity.
Qed.

Lemma updates_total_mold (a : coord -> number) (l : list coord)
  (next next' : Grid) :
  updates (fun n => n) (fun n => add_mold (a n)) l next = Ok next' ->
  total_mold next' = total_mold next + qsum (map a l).
Proof.
  unfold updates. revert next.
  induction l as [|n l IH]; intros next; cbn [for_each map].
  - intros [= <-]. rewrite qsum_nil. ring.
  - intros H. apply bind_Ok in H as (n1 & U & R).
    rewrite (IH _ R), (total_mold_add _ _ _ _ U), qsum_cons. ring.
Qed.

Lemma mold_shares_total (grid : Grid) (s : Site) (l : list coord) :
  length l = 4%nat ->
  qsum (map (fun n => mold s * weight_of grid l n) l) = mold s.
Proof.
  intros L. rewrite (qsum_map_scale (weight_of grid l)), (weights_sum _ _ L).
  ring.
Qed.

(** One application of the Mold rule at a site whose neighbors exist in both
    grids completes, keeps the key set of the next grid and adds the site's
    mold to the total of the next grid. *)
Lemma process_site_mold_total (grid next : Grid) (c : coord) (s : Site) :
  (forall n, In n (GridUtils.neighbors c) -> Dict.mem n grid = true) ->
  (forall n, In n (GridUtils.neighbors c) -> Dict.mem n next = true) ->
  exists next',
    process_site MoldBehavior grid next c s = Ok next'
    /\ Dict.keys next' = Dict.keys next
    /\ total_mold next' = total_mold next + mold s.
Proof.
  intros Hg Hn. destruct (ranked_neighbors_Ok grid c Hg) as (l & R & P).
  assert (Hl : forall n, In n l -> In n (GridUtils.neighbors c)).
  { intros n I. now apply (Permutation_in _ P). }
  rewrite (process_site_mold grid next c s l R) by (intros; auto).
  destruct (updates_Ok (fun n => n)
              (fun n => add_mold (mold s * weight_of grid l n)) l next)
    as (next' & U & K & _); [intros; auto|].
  exists next'. split; [exact U|]. split; [exact K|].
  rewrite (updates_total_mold _ _ _ _ U), mold_shares_total; [reflexivity|].
  rewrite (Permutation_length P). apply neighbors_length.
Qed.

(** Without rounding, the weights [MoldBehavior.process_site] computes for
    the four (ranked) neighbors of a source site sum to 1, in the
    camp-proportional case as well as in the uniform fallback, and the
    amounts [mold * weight] it distributes sum to the mold of the source
    site: the writes add that amount to the total mold of the next grid. *)
Lemma mold_shares_exact (grid : Grid) (c : coord) (s : Site) :
  0 < mold s ->
  (forall n, In n (GridUtils.neighbors c) -> Dict.mem n grid = true) ->
  exists l total_camp ws,
    ranked_neighbors grid c = Ok l
    /\ Permutation l (GridUtils.neighbors c)
    /\ total_camp_of grid l = Ok total_camp
    /\ map_result (weight grid total_camp l) l = Ok ws
    /\ ws = map (fun n => if num_ltb 0 total_camp
                          then camp (site_at grid n) / total_camp
                          else 1 / num_of_Z 4) l
    /\ qsum ws = 1
    /\ qsum (map (Qcmult (mold s)) ws) = mold s
    /\ forall next,
         (forall n, In n (GridUtils.neighbors c) -> Dict.mem n next = true) ->
         exists next',
           process_site MoldBehavior grid next c s = Ok next'
           /\ total_mold next' = total_mold next + mold s.
Proof.
  intros _ Hg. destruct (ranked_neighbors_Ok grid c Hg) as (l & R & P).
  assert (Hl : forall n, In n l -> Dict.mem n grid = true).
  { intros n I. apply Hg. now apply (Permutation_in _ P). }
  assert (L : length l = 4%nat).
  { rewrite (Permutation_length P). apply neighbors_length. }
  exists l, (fold_left Qcplus (map (fun n => camp (site_at grid n)) l) 0),
    (map (weight_of grid l) l).
  split; [exact R|]. split; [exact P|].
  split; [now apply total_camp_of_Ok|].
  split; [apply map_result_pure; intros n I; apply weight_Ok, Hl, I|].
  split.
  { apply map_ext. intros n. unfold weight_of. cbv zeta. now rewrite L. }
  split; [now apply weights_sum|].
  split.
  { rewrite map_map. now apply mold_shares_total. }
  intros next Hn.
  destruct (process_site_mold_total grid next c s Hg Hn) as (next' & E & _ & T).
  eauto.
Qed.

(** C5: at a site with [mold > 0] all four of whose neighbors have
    [camp == 0] in the grid, [MoldBehavior.process_site] uses the uniform
    weight 1/4: every neighbor's mold in the next grid grows by exactly
    [mold / 4], and no other entry of the next grid changes. *)
Theorem mold_uniform_fallback (grid next : Grid) (c : coord) (s : Site) :
  0 < mold s ->
  (forall n, In n (GridUtils.neighbors c) ->
             exists sn, Dict.find n grid = Some sn /\ camp sn = 0) ->
  (forall n, In n (GridUtils.neighbors c) -> Dict.mem n next = true) ->
  exists next',
    process_site MoldBehavior grid next c s = Ok next'
    /\ (forall n, In n (GridUtils.neighbors c) ->
          Dict.find n next'
          = option_map (add_mold (mold s / num_of_Z 4)) (Dict.find n next))
    /\ (forall k, ~ In k (GridUtils.neighbors c) ->
          Dict.find k next' = Dict.find k next).
Proof.
  intros _ Hc Hn.
  assert (Hg : forall n, In n (GridUtils.neighbors c) -> Dict.mem n grid = true).
  { intros n I. apply mem_find. destruct (Hc n I) as (sn & E & _). eauto. }
  destruct (ranked_neighbors_Ok grid c Hg) as (l & R & P).
  assert (Hl : forall n, In n l -> In n (GridUtils.neighbors c)).
  { intros n I. now apply (Permutation_in _ P). }
  assert (L : length l = 4%nat).
  { rewrite (Permutation_length P). apply neighbors_length. }
  assert (W : forall n, weight_of grid l n = 1 / num_of_Z 4).
  { intros n. unfold weight_of. cbv zeta.
    rewrite fold_left_qsum, qsum_map_zero.
    - replace (0 + 0) with 0 by ring. rewrite num_ltb_irrefl, L. reflexivity.
    - intros k I. destruct (Hc k (Hl k I)) as (sn & E & Z).
      unfold site_at. now rewrite E. }
  rewrite (process_site_mold grid next c s l R) by (intros; auto).
  destruct (updates_Ok (fun n => n)
              (fun n => add_mold (mold s * weight_of grid l n)) l next)
    as (next' & U & _ & F); [intros; auto|].
  assert (N : NoDup (map (fun n : coord => n) l)).
  { rewrite map_id. apply (Permutation_NoDup (Permutation_sym P)).
    apply neighbors_NoDup. }
  exists next'. split; [exact U|]. split.
  - intros n I. rewrite F.
    assert (Il : In n l) by now apply (Permutation_in _ (Permutation_sym P)).
    destruct (Dict.find n next) as [s0|]; [|reflexivity]. cbn [option_map].
    rewrite (effect_once _ _ n l n s0 N Il eq_refl), W.
    replace (mold s * (1 / num_of_Z 4)) with (mold s / num_of_Z 4)
      by (unfold Qcdiv; ring).
    reflexivity.
  - intros k I. rewrite F.
    destruct (Dict.find k next) as [s0|]; [|reflexivity]. cbn [option_map].
    rewrite effect_absent; [reflexivity|].
    rewrite map_id. intros Il. apply I, Hl, Il.
Qed.

(** ** The Mold rule on a whole grid *)

Lemma apply_mold_total (grid : Grid) (items next : Grid) :
  (forall c s, In (c, s) items -> 0 <= mold s) ->
  (forall c s, In (c, s) items -> 0 < mold s ->
     forall n, In n (GridUtils.neighbors c) ->
               Dict.mem n grid = true /\ Dict.mem n next = true) ->
  exists next',
    for_each
      (fun nx item =>
         if is_process_site MoldBehavior (snd item)
         then process_site MoldBehavior grid nx (fst item) (snd item)
         else Ok nx)
      items next = Ok next'
    /\ total_mold next' = total_mold next + total_mold items.
Proof.
  revert next. induction items as [|[c s] items IH]; intros next Hpos Hn.
  - exists next. split; [reflexivity|]. unfold total_mold at 3. cbn [map].
    rewrite qsum_nil. ring.
  - cbn [for_each fst snd is_process_site].
    destruct (num_ltb 0 (mold s)) eqn:A.
    + apply num_ltb_lt in A.
      destruct (process_site_mold_total grid next c s) as (n1 & E & K & T).
      { intros n I. apply (Hn c s (or_introl eq_refl) A n I). }
      { intros n I. apply (Hn c s (or_introl eq_refl) A n I). }
      rewrite E. cbn [bind].
      destruct (IH n1) as (next' & E' & T').
      { intros c' s' I. apply (Hpos c' s'). now right. }
      { intros c' s' I A' n In'.
        destruct (Hn c' s' (or_intror I) A' n In') as [Mg Mn].
        split; [exact Mg|]. apply mem_keys. rewrite K. now apply mem_keys. }
      exists next'. split; [exact E'|].
      rewrite T', T, total_mold_cons. cbn [snd]. ring.
    + apply num_ltb_ge in A. cbn [bind].
      assert (Z : mold s = 0).
      { apply Qcle_antisym; [exact A|]. apply (Hpos c s). now left. }
      destruct (IH next) as (next' & E' & T').
      { intros c' s' I. apply (Hpos c' s'). now right. }
      { intros c' s' I. apply (Hn c' s'). now right. }
      exists next'. split; [exact E'|].
      rewrite T', total_mold_cons. cbn [snd]. rewrite Z. ring.
Qed.

(** C10 (for non-negative mold, in exact arithmetic): applied alone to a
    grid of non-negative mold in which every site with [mold > 0] has its
    four neighbors present, and writing into a next grid that holds these
    neighbors with all mold fields zero, [MoldBehavior.apply] completes with
    a next grid whose total mold, summed without rounding, equals the total
    mold of the current grid. *)
Theorem mold_behavior_conserves_mold (grid next : Grid) :
  (forall c s, In (c, s) grid -> 0 <= mold s) ->
  (forall c s, In (c, s) grid -> 0 < mold s ->
     forall n, In n (GridUtils.neighbors c) ->
               Dict.mem n grid = true /\ Dict.mem n next = true) ->
  (forall c s, In (c, s) next -> mold s = 0) ->
  exists next',
    apply MoldBehavior grid next = Ok next'
    /\ total_mold next' = total_mold grid.
Proof.
  intros Hpos Hn Hz.
  destruct (apply_mold_total grid grid next Hpos Hn) as (next' & E & T).
  exists next'. split; [exact E|]. rewrite T.
  unfold total_mold at 1. rewrite qsum_map_zero; [ring|].
  intros [c s] I. cbn [snd]. now apply (Hz c s).
Qed.

(** ** Expansion *)

(** The list [new_cells] that [expand_grid] collects before it inserts. *)
Definition new_cells (grid : Grid) : list coord :=
  flat_map
    (fun c => filter (fun n => negb (Dict.mem n grid)) (GridUtils.neighbors c))
    (Dict.keys grid).

(** [c] is a neighbor of a key of [grid]. *)
Definition borders (grid : Grid) (c : coord) : Prop :=
  exists k, In k (Dict.keys grid) /\ In c (GridUtils.neighbors k).

Lemma In_new_cells (grid : Grid) (c : coord) :
  In c (new_cells grid) <-> borders grid c /\ Dict.find c grid = None.
Proof.
  unfold new_cells, borders. rewrite in_flat_map. split.
  - intros (k & Ik & F). apply filter_In in F as [In' M].
    apply negb_true_iff, mem_false_find in M. eauto.
  - intros ((k & Ik & In') & M). exists k. split; [exact Ik|].
    apply filter_In. split; [exact In'|].
    now apply negb_true_iff, mem_false_find.
Qed.

Lemma find_insert_zeros (l : list coord) (g : Grid) (c : coord) :
  Dict.find c (fold_left (fun g cell => Dict.set cell zero_site g) l g)
  = if existsb (coord_eqb c) l then Some zero_site else Dict.find c g.
Proof.
  revert g. induction l as [|a l IH]; intros g; cbn [fold_left existsb].
  - reflexivity.
  - rewrite IH, find_set, (coord_eqb_sym c a).
    destruct (existsb (coord_eqb c) l), (coord_eqb a c); reflexivity.
Qed.

Lemma existsb_coord (c : coord) (l : list coord) :
  existsb (coord_eqb c) l = true <-> In c l.
Proof.
  rewrite existsb_exists. split.
  - intros (x & I & E). apply coord_eqb_eq in E. now subst.
  - intros I. exists c. split; [exact I | apply coord_eqb_refl].
Qed.

Lemma find_expand_grid (grid : Grid) (c : coord) :
  Dict.find c (GridUtils.expand_grid grid)
  = if existsb (coord_eqb c) (new_cells grid) then Some zero_site
    else Dict.find c grid.
Proof. apply find_insert_zeros. Qed.

Lemma find_expand_old (grid : Grid) (c : coord) (s : Site) :
  Dict.find c grid = Some s ->
  Dict.find c (GridUtils.expand_grid grid) = Some s.
Proof.
  intros E. rewrite find_expand_grid.
  destruct (existsb (coord_eqb c) (new_cells grid)) eqn:X; [|exact E].
  apply existsb_coord, In_new_cells in X as [_ N]. congruence.
Qed.

Lemma find_expand_new (grid : Grid) (c : coord) :
  Dict.find c grid = None -> borders grid c ->
  Dict.find c (GridUtils.expand_grid grid) = Some zero_site.
Proof.
  intros E B. rewrite find_expand_grid.
  destruct (existsb (coord_eqb c) (new_cells grid)) eqn:X; [reflexivity|].
  assert (I : In c (new_cells grid)) by (apply In_new_cells; auto).
  apply existsb_coord in I. congruence.
Qed.

Lemma find_expand_far (grid : Grid) (c : coord) :
  Dict.find c grid = None -> ~ borders grid c ->
  Dict.find c (GridUtils.expand_grid grid) = None.
Proof.
  intros E B. rewrite find_expand_grid.
  destruct (existsb (coord_eqb c) (new_cells grid)) eqn:X; [|exact E].
  apply existsb_coord, In_new_cells in X as [B' _]. contradiction.
Qed.

Lemma set_app_fresh {V : Type} (k : coord) (v : V) (g h : Dict.t V) :
  Dict.find k g = None -> Dict.set k v (g ++ h) = g ++ Dict.set k v h.
Proof.
  induction g as [|[k0 v0] g IH]; cbn; [reflexivity|].
  destruct (coord_eqb k0 k); [discriminate|].
  intros E. now rewrite IH.
Qed.

Lemma set_zero_zeros (k : coord) (added : list coord) :
  exists added',
    Dict.set k zero_site (map (fun c => (c, zero_site)) added)
    = map (fun c => (c, zero_site)) added'.
Proof.
  induction added as [|a added (added' & IH)]; cbn.
  - now exists [k].
  - destruct (coord_eqb a k).
    + now exists (a :: added).
    + exists (a :: added'). cbn. now rewrite IH.
Qed.

(** Expansion keeps the grid as it is and appends zeroed entries. *)
Lemma expand_grid_appends (grid : Grid) :
  exists added,
    GridUtils.expand_grid grid = grid ++ map (fun c => (c, zero_site)) added.
Proof.
  unfold GridUtils.expand_grid. fold (new_cells grid).
  assert (H : forall c, In c (new_cells grid) -> Dict.find c grid = None).
  { intros c I. now apply In_new_cells in I. }
  assert (G : forall (l added : list coord),
             (forall c, In c l -> Dict.find c grid = None) ->
             exists added',
               fold_left (fun g cell => Dict.set cell zero_site g) l
                 (grid ++ map (fun c => (c, zero_site)) added)
               = grid ++ map (fun c => (c, zero_site)) added').
  { induction l as [|a l IH]; intros added Hl; cbn [fold_left].
    - now exists added.
    - rewrite set_app_fresh by (apply Hl; now left).
      destruct (set_zero_zeros a added) as (added1 & ->).
      apply IH. intros c I. apply Hl. now right. }
  destruct (G (new_cells grid) [] H) as (added & E).
  exists added. cbn [map] in E. now rewrite app_nil_r in E.
Qed.

(** C9: [expand_grid] leaves every existing entry as it is, inserts a zeroed
    state under every neighbor of a pre-expansion key that is not a key
    itself, and inserts nothing else (no neighbor of a new neighbor): the
    result is the old grid followed by zeroed entries.  On a grid in which
    the neighbors of every key are keys already it returns the grid
    unchanged. *)
Theorem expand_grid_spec (grid : Grid) :
  (forall c s, Dict.find c grid = Some s ->
               Dict.find c (GridUtils.expand_grid grid) = Some s)
  /\ (forall c, Dict.find c grid = None -> borders grid c ->
                Dict.find c (GridUtils.expand_grid grid) = Some zero_site)
  /\ (forall c, Dict.find c grid = None -> ~ borders grid c ->
                Dict.find c (GridUtils.expand_grid grid) = None)
  /\ (exists added,
        GridUtils.expand_grid grid
        = grid ++ map (fun c => (c, zero_site)) added)
  /\ ((forall k n, In k (Dict.keys grid) -> In n (GridUtils.neighbors k) ->
                   Dict.mem n grid = true) ->
      GridUtils.expand_grid grid = grid).
Proof.
  split; [apply find_expand_old|]. split; [apply find_expand_new|].
  split; [apply find_expand_far|]. split; [apply expand_grid_appends|].
  intros H. unfold GridUtils.expand_grid. fold (new_cells grid).
  destruct (new_cells grid) as [|c l] eqn:E; [reflexivity|].
  assert (I : In c (new_cells grid)) by (rewrite E; now left).
  apply In_new_cells in I as ((k & Ik & In') & N).
  apply mem_false_find in N. rewrite (H k c Ik In') in N. discriminate.
Qed.

Lemma wf_insert_zeros (l : list coord) (g : Grid) :
  Dict.wf g -> Dict.wf (fold_left (fun g cell => Dict.set cell zero_site g) l g).
Proof.
  revert g. induction l as [|a l IH]; intros g W; cbn [fold_left]; [exact W|].
  apply IH, wf_set, W.
Qed.

Lemma wf_expand_grid (grid : Grid) :
  Dict.wf grid -> Dict.wf (GridUtils.expand_grid grid).
Proof. apply wf_insert_zeros. Qed.

(** ** Pruning *)

Definition nonzero (item : coord * Site) : bool := negb (all_zero (snd item)).

Lemma for_each_del_skip (k : coord) (s : Site) (ks : list coord) (g : Grid) :
  ~ In k ks ->
  for_each (fun g key => Dict.del key g) ks ((k, s) :: g)
  = (r <- for_each (fun g key => Dict.del key g) ks g ;; Ok ((k, s) :: r)).
Proof.
  revert g. induction ks as [|a ks IH]; intros g N; cbn [for_each].
  - reflexivity.
  - cbn [Dict.del]. destruct (coord_eqb k a) eqn:E.
    + apply coord_eqb_eq in E. subst. exfalso. apply N. now left.
    + destruct (Dict.del a g) as [g'|e]; cbn [bind]; [|reflexivity].
      apply IH. intros I. apply N. now right.
Qed.

Lemma prune_empty_sites_filter (grid : Grid) :
  Dict.wf grid ->
  GridUtils.prune_empty_sites grid = Ok (filter nonzero grid).
Proof.
  unfold GridUtils.prune_empty_sites. cbv zeta.
  induction grid as [|[k s] grid IH]; intros W; [reflexivity|].
  cbn [filter snd]. unfold nonzero at 1. cbn [snd].
  destruct (all_zero s); cbn [negb map fst for_each].
  - cbn [Dict.del]. rewrite coord_eqb_refl. cbn [bind].
    apply IH. exact (wf_tail _ _ W).
  - rewrite for_each_del_skip.
    + rewrite IH by exact (wf_tail _ _ W). reflexivity.
    + intros I. apply in_map_iff in I as ((k' & s') & <- & F).
      apply filter_In in F as [F _]. cbn [fst] in W.
      unfold Dict.wf in W. cbn in W. inversion W as [|? ? N0 N1]; subst.
      apply N0. change k' with (fst (k', s')). now apply in_map.
Qed.

Lemma filter_nonzero (grid : Grid) (c : coord) (s : Site) :
  In (c, s) (filter nonzero grid) <-> In (c, s) grid /\ all_zero s = false.
Proof.
  rewrite filter_In. unfold nonzero. cbn [snd].
  now rewrite negb_true_iff.
Qed.

(** ** The behaviors never change the key set of the next grid *)

Lemma update_keys (k : coord) (f : Site -> Site) (g g' : Grid) :
  update k f g = Ok g' -> Dict.keys g' = Dict.keys g.
Proof.
  intros H. apply update_inv in H as (s & E & ->).
  rewrite keys_set. unfold Dict.mem. now rewrite E.
Qed.

Lemma for_each_keys {A : Type} (body : Grid -> A -> result Grid) (l : list A) :
  (forall g a g', body g a = Ok g' -> Dict.keys g' = Dict.keys g) ->
  forall g g', for_each body l g = Ok g' -> Dict.keys g' = Dict.keys g.
Proof.
  intros H. induction l as [|a l IH]; intros g g'; cbn [for_each].
  - now intros [= <-].
  - intros R. apply bind_Ok in R as (g1 & B & R).
    rewrite (IH _ _ R). now apply (H g a).
Qed.

Lemma process_site_keys (b : Behavior) (grid next next' : Grid) (c : coord)
  (s : Site) :
  process_site b grid next c s = Ok next' -> Dict.keys next' = Dict.keys next.
Proof.
  destruct b; cbn [process_site].
  - intros H. apply bind_Ok in H as (l & _ & H).
    apply bind_Ok in H as (tc & _ & H). revert H. apply for_each_keys.
    intros g n g' H. apply bind_Ok in H as (w & _ & H).
    now apply update_keys in H.
  - intros H. apply bind_Ok in H as (n1 & U1 & U2).
    apply update_keys in U1, U2. congruence.
  - discriminate.
Qed.

Lemma apply_keys (b : Behavior) (grid next next' : Grid) :
  apply b grid next = Ok next' -> Dict.keys next' = Dict.keys next.
Proof.
  assert (G : forall b', 
             for_each
               (fun nx item =>
                  if is_process_site b' (snd item)
                  then process_site b' grid nx (fst item) (snd item)
                  else Ok nx) grid next = Ok next' ->
             Dict.keys next' = Dict.keys next).
  { intros b'. apply for_each_keys. intros g item g'.
    destruct (is_process_site b' (snd item)).
    - apply process_site_keys.
    - now intros [= <-]. }
  destruct b; cbn [apply]; try apply G.
  intros H. apply bind_Ok in H as (nc & _ & H). revert H.
  apply for_each_keys. intros g item g'. apply update_keys.
Qed.


Lemma keys_fresh_next_grid (grid : Grid) :
  Dict.keys (fresh_next_grid grid) = Dict.keys grid.
Proof.
  unfold fresh_next_grid, Dict.keys. rewrite map_map. reflexivity.
Qed.

Lemma find_fresh_next_grid (grid : Grid) (c : coord) :
  Dict.find c (fresh_next_grid grid)
  = option_map (fun _ => zero_site) (Dict.find c grid).
Proof.
  induction grid as [|[k s] grid IH]; cbn; [reflexivity|].
  destruct (coord_eqb k c); [reflexivity | exact IH].
Qed.

(** ** The Camp rule *)

(** The value accumulated under [k], 0 when [k] is not a key. *)
Definition acc_val (d : Dict.t number) (k : coord) : number :=
  match Dict.find k d with Some v => v | None => 0 end.

Lemma accumulate_Ok (n : coord) (x : number) (d : Dict.t number) :
  exists d',
    accumulate n x d = Ok d'
    /\ (forall k, acc_val d' k
                  = acc_val d k + (if coord_eqb n k then x else 0))
    /\ (forall k, Dict.mem k d' = Dict.mem k d || coord_eqb n k)
    /\ (Dict.wf d -> Dict.wf d').
Proof.
  unfold accumulate, Dict.get.
  destruct (Dict.mem n d) eqn:M.
  - destruct (proj1 (mem_find d n) M) as [v E]. rewrite E.
    eexists. split; [reflexivity|]. split; [|split].
    + intros k. unfold acc_val. rewrite find_set.
      destruct (coord_eqb n k) eqn:Ek.
      * apply coord_eqb_eq in Ek. subst k. now rewrite E.
      * ring.
    + intros k. unfold Dict.mem. rewrite find_set.
      destruct (coord_eqb n k) eqn:Ek.
      * now rewrite orb_true_r.
      * now rewrite orb_false_r.
    + apply wf_set.
  - rewrite find_set, coord_eqb_refl.
    eexists. split; [reflexivity|]. split; [|split].
    + intros k. unfold acc_val. rewrite !find_set.
      apply mem_false_find in M.
      destruct (coord_eqb n k) eqn:Ek.
      * apply coord_eqb_eq in Ek. subst k. rewrite M. ring.
      * ring.
    + intros k. unfold Dict.mem. rewrite !find_set.
      destruct (coord_eqb n k) eqn:Ek.
      * now rewrite orb_true_r.
      * now rewrite orb_false_r.
    + intros W. now apply wf_set, wf_set.
Qed.

Lemma accumulate_all_Ok (x : number) (l : list coord) (d : Dict.t number) :
  exists d',
    for_each (fun nc n => accumulate n x nc) l d = Ok d'
    /\ (forall k, acc_val d' k
                  = acc_val d k
                    + qsum (map (fun n => if coord_eqb n k then x else 0) l))
    /\ (forall k, Dict.mem k d'
                  = Dict.mem k d || existsb (fun n => coord_eqb n k) l)
    /\ (Dict.wf d -> Dict.wf d').
Proof.
  revert d. induction l as [|n l IH]; intros d; cbn [for_each map existsb].
  - exists d. split; [reflexivity|]. split; [|split].
    + intros k. rewrite qsum_nil. ring.
    + intros k. now rewrite orb_false_r.
    + auto.
  - destruct (accumulate_Ok n x d) as (d1 & E1 & V1 & M1 & W1).
    rewrite E1. cbn [bind].
    destruct (IH d1) as (d' & E' & V' & M' & W').
    exists d'. split; [exact E'|]. split; [|split].
    + intros k. rewrite V', V1, qsum_cons. ring.
    + intros k. rewrite M', M1. now rewrite orb_assoc.
    + auto.
Qed.

(** What the site [item] sends to each of its neighbors. *)
Definition outflow (state : Site) : number :=
  camp state * (1 - camp_decay CONFIG) * num_frac 1 4.

Lemma camp_spread_from (grid : Grid) (d : Dict.t number) :
  exists d',
    for_each
      (fun new_camp item =>
         let camp := camp (snd item) * (1 - camp_decay CONFIG) in
         for_each
           (fun new_camp neighbor =>
              accumulate neighbor (camp * num_frac 1 4) new_camp)
           (GridUtils.neighbors (fst item)) new_camp)
      grid d = Ok d'
    /\ (forall k,
          acc_val d' k
          = acc_val d k
            + qsum (map (fun item =>
                           qsum (map (fun n => if coord_eqb n k
                                               then outflow (snd item) else 0)
                                   (GridUtils.neighbors (fst item)))) grid))
    /\ (forall k,
          Dict.mem k d'
          = Dict.mem k d
            || existsb (fun item =>
                          existsb (fun n => coord_eqb n k)
                            (GridUtils.neighbors (fst item))) grid)
    /\ (Dict.wf d -> Dict.wf d').
Proof.
  revert d. induction grid as [|item grid IH]; intros d;
    cbn [for_each map existsb].
  - exists d. split; [reflexivity|]. split; [|split].
    + intros k. rewrite qsum_nil. ring.
    + intros k. now rewrite orb_false_r.
    + auto.
  - cbv zeta.
    destruct (accumulate_all_Ok
                (camp (snd item) * (1 - camp_decay CONFIG) * num_frac 1 4)
                (GridUtils.neighbors (fst item)) d)
      as (d1 & E1 & V1 & M1 & W1).
    rewrite E1. cbn [bind].
    destruct (IH d1) as (d' & E' & V' & M' & W').
    exists d'. split; [exact E'|]. split; [|split].
    + intros k. rewrite V', V1, qsum_cons. unfold outflow. ring.
    + intros k. rewrite M', M1. now rewrite orb_assoc.
    + auto.
Qed.

Lemma mem_empty (k : coord) : Dict.mem k (@Dict.empty number) = false.
Proof. reflexivity. Qed.

Lemma camp_spread_Ok (grid : Grid) :
  exists new_camp,
    camp_spread grid = Ok new_camp
    /\ Dict.wf new_camp
    /\ (forall k, Dict.mem k new_camp = true <-> borders grid k)
    /\ (forall k,
          acc_val new_camp k
          = qsum (map (fun item =>
                         qsum (map (fun n => if coord_eqb n k
                                             then outflow (snd item) else 0)
                                 (GridUtils.neighbors (fst item)))) grid)).
Proof.
  destruct (camp_spread_from grid Dict.empty) as (d' & E & V & M & W).
  exists d'. split; [exact E|]. split; [apply W; constructor|]. split.
  - intros k. rewrite M, mem_empty, orb_false_l, existsb_exists.
    unfold borders. split.
    + intros (item & I & X). apply existsb_exists in X as (n & In' & Ek).
      apply coord_eqb_eq in Ek. subst n.
      exists (fst item). split; [now apply in_map | exact In'].
    + intros (c & Ic & In'). apply in_map_iff in Ic as (item & <- & I).
      exists item. split; [exact I|]. apply existsb_exists.
      exists k. split; [exact In' | apply coord_eqb_refl].
  - intros k. rewrite V. unfold acc_val. cbn. ring.
Qed.

Lemma add_camp_0 (s : Site) : add_camp 0 s = s.
Proof.
  destruct s as [m f c r]. unfold add_camp. cbn. f_equal. ring.
Qed.

Lemma effect_commit (new_camp : Dict.t number) (k : coord) (s : Site) :
  Dict.wf new_camp ->
  effect fst (fun item => add_camp (snd item)) k new_camp s
  = add_camp (acc_val new_camp k) s.
Proof.
  intros W. unfold acc_val. destruct (Dict.find k new_camp) as [v|] eqn:E.
  - apply find_In in E.
    now rewrite (effect_once fst _ k new_camp (k, v) s W E eq_refl).
  - rewrite effect_absent, add_camp_0; [reflexivity|].
    intros I. apply mem_keys in I. apply mem_false_find in E. congruence.
Qed.

(** ** The Food rule *)

(** What [FoodBehavior.process_site] does to the entry of the next grid at
    the coordinate of a site in state [s]. *)
Definition food_write (s : Site) (n : Site) : Site :=
  {| mold := mold n;
     food := food n - food_consumption_rate CONFIG * mold s;
     camp := camp n
             + food_consumption_rate CONFIG * mold s
               * amplification_factor CONFIG;
     refractory := refractory n |}.

(** The effect of [FoodBehavior.apply] over the sites [items] on the entry
    stored under [c]. *)
Definition food_effect (items : Grid) (c : coord) (n : Site) : Site :=
  match Dict.find c items with
  | Some s => if is_process_site FoodBehavior s then food_write s n else n
  | None => n
  end.

Lemma process_site_food (grid next : Grid) (c : coord) (s n : Site) :
  Dict.find c next = Some n ->
  process_site FoodBehavior grid next c s
  = Ok (Dict.set c (food_write s n)
          (Dict.set c
             (add_camp (food_consumption_rate CONFIG * mold s
                        * amplification_factor CONFIG) n) next)).
Proof.
  intros E. cbn [process_site]. rewrite (update_Ok _ _ _ _ E). cbn [bind].
  rewrite (update_Ok _ _ _
             (add_camp (food_consumption_rate CONFIG * mold s
                        * amplification_factor CONFIG) n)).
  - reflexivity.
  - rewrite find_set, coord_eqb_refl. reflexivity.
Qed.

Lemma apply_food_items (grid : Grid) (items next : Grid) :
  Dict.wf items ->
  (forall c s, In (c, s) items -> is_process_site FoodBehavior s = true ->
               Dict.mem c next = true) ->
  exists next',
    for_each
      (fun nx item =>
         if is_process_site FoodBehavior (snd item)
         then process_site FoodBehavior grid nx (fst item) (snd item)
         else Ok nx)
      items next = Ok next'
    /\ forall c, Dict.find c next'
                 = option_map (food_effect items c) (Dict.find c next).
Proof.
  revert next. induction items as [|[k s] items IH]; intros next W H.
  - exists next. split; [reflexivity|]. intros c.
    now destruct (Dict.find c next).
  - cbn [for_each fst snd].
    pose proof (wf_head_fresh _ _ _ W) as Fresh.
    destruct (is_process_site FoodBehavior s) eqn:A.
    + destruct (proj1 (mem_find next k) (H k s (or_introl eq_refl) A))
        as [n E].
      rewrite (process_site_food grid next k s n E). cbn [bind].
      set (n1 := Dict.set k (food_write s n) _).
      assert (F1 : forall c, Dict.find c n1
                             = if coord_eqb k c then Some (food_write s n)
                               else Dict.find c next).
      { intros c. unfold n1. rewrite !find_set.
        now destruct (coord_eqb k c). }
      destruct (IH n1) as (next' & R & F).
      { exact (wf_tail _ _ W). }
      { intros c' s' I A'. unfold Dict.mem. rewrite F1.
        destruct (coord_eqb k c'); [reflexivity|].
        apply (H c' s'); [now right | exact A']. }
      exists next'. split; [exact R|].
      intros c. rewrite F, F1. unfold food_effect. cbn [Dict.find].
      destruct (coord_eqb k c) eqn:Ek.
      * apply coord_eqb_eq in Ek. subst c. rewrite E, Fresh, A. reflexivity.
      * reflexivity.
    + cbn [bind]. destruct (IH next) as (next' & R & F).
      { exact (wf_tail _ _ W). }
      { intros c' s' I. apply (H c' s'). now right. }
      exists next'. split; [exact R|].
      intros c. rewrite F. unfold food_effect. cbn [Dict.find].
      destruct (coord_eqb k c) eqn:Ek; [|reflexivity].
      apply coord_eqb_eq in Ek. subst c. rewrite Fresh, A.
      now destruct (Dict.find k next).
Qed.

Lemma zero_site_inactive (b : Behavior) :
  b <> CampBehavior -> is_process_site b zero_site = false.
Proof. destruct b; intros N; [reflexivity | reflexivity | congruence]. Qed.

(** The sites of the expanded grid that a rule acts on are sites of the grid
    before expansion: the new entries are zeroed. *)
Lemma active_in_expanded (b : Behavior) (grid : Grid) (c : coord) (s : Site) :
  b <> CampBehavior -> Dict.wf grid ->
  In (c, s) (GridUtils.expand_grid grid) ->
  is_process_site b s = true ->
  Dict.find c grid = Some s.
Proof.
  intros Nb W I A.
  apply (In_find _ _ _ (wf_expand_grid _ W)) in I.
  rewrite find_expand_grid in I.
  destruct (existsb (coord_eqb c) (new_cells grid)).
  - injection I as <-. rewrite zero_site_inactive in A by exact Nb.
    discriminate.
  - exact I.
Qed.

(** ** A step never completes on a non-empty grid *)

Lemma exists_rightmost (l : list coord) :
  l <> [] ->
  exists k, In k l /\ forall k', In k' l -> (fst k' <= fst k)%Z.
Proof.
  induction l as [|a l IH]; [congruence|]. intros _.
  destruct l as [|b l].
  - exists a. split; [now left|]. intros k' [<-|[]]. lia.
  - destruct IH as (k & I & M); [congruence|].
    destruct (Z_le_gt_dec (fst a) (fst k)) as [L|G].
    + exists k. split; [now right|]. intros k' [<-|I']; [exact L | now apply M].
    + exists a. split; [now left|]. intros k' [<-|I']; [lia|].
      specialize (M k' I'). lia.
Qed.

Lemma apply_behaviors_raises (grid : Grid) :
  grid <> [] ->
  exists e,
    apply_behaviors (GridUtils.expand_grid grid) (fresh_next_grid grid)
    = Raise e.
Proof.
  intros NE.
  destruct (apply_behaviors _ _) as [n3|e] eqn:R; [exfalso | eauto].
  unfold apply_behaviors, behaviors in R. cbn [for_each] in R.
  apply bind_Ok in R as (n1 & R1 & R). apply bind_Ok in R as (n2 & R2 & R).
  apply bind_Ok in R as (n3' & R3 & _).
  apply apply_keys in R1, R2. rewrite keys_fresh_next_grid in R1.
  cbn [apply] in R3. apply bind_Ok in R3 as (nc & S & U).
  destruct (camp_spread_Ok (GridUtils.expand_grid grid))
    as (nc' & S' & _ & M & _).
  rewrite S in S'. injection S' as <-.
  apply (updates_keys fst) in U as [_ U].
  destruct (expand_grid_appends grid) as (added & X).
  destruct (exists_rightmost (Dict.keys (GridUtils.expand_grid grid)))
    as (k & Ik & Mk).
  { rewrite X. destruct grid; [congruence | discriminate]. }
  assert (B : borders (GridUtils.expand_grid grid) (fst k + 1, snd k)%Z).
  { exists k. split; [exact Ik|]. destruct k as [x y]. cbn. tauto. }
  apply M, mem_find in B as [v B]. apply find_In, U in B. cbn [fst] in B.
  apply mem_keys in B. rewrite R2, R1 in B.
  assert (I : In (fst k + 1, snd k)%Z (Dict.keys (GridUtils.expand_grid grid))).
  { rewrite X. unfold Dict.keys. rewrite map_app. apply in_or_app. now left. }
  specialize (Mk _ I). cbn [fst] in Mk. lia.
Qed.

(** The only exception the behaviors raise is [KeyError]. *)
Definition key_errors_only {A : Type} (r : result A) : Prop :=
  r <> Raise NotImplementedError.

Lemma bind_key_errors {A B : Type} (m : result A) (k : A -> result B) :
  key_errors_only m -> (forall a, key_errors_only (k a)) ->
  key_errors_only (x <- m ;; k x).
Proof.
  unfold key_errors_only. destruct m as [a|e]; cbn [bind]; intros Hm Hk.
  - apply Hk.
  - intros [= ->]. now apply Hm.
Qed.

Lemma for_each_key_errors {S A : Type} (body : S -> A -> result S)
  (l : list A) (s : S) :
  (forall s a, key_errors_only (body s a)) ->
  key_errors_only (for_each body l s).
Proof.
  intros H. revert s. induction l as [|a l IH]; intros s; cbn [for_each].
  - discriminate.
  - apply bind_key_errors; [apply H | exact IH].
Qed.

Lemma map_result_key_errors {A B : Type} (f : A -> result B) (l : list A) :
  (forall a, key_errors_only (f a)) -> key_errors_only (map_result f l).
Proof.
  intros H. induction l as [|a l IH]; cbn [map_result].
  - discriminate.
  - apply bind_key_errors; [apply H|]. intros b.
    apply bind_key_errors; [exact IH|]. discriminate.
Qed.

Lemma get_key_errors {V : Type} (k : coord) (d : Dict.t V) :
  key_errors_only (Dict.get k d).
Proof. unfold Dict.get. destruct (Dict.find k d); discriminate. Qed.

Lemma update_key_errors (k : coord) (f : Site -> Site) (g : Grid) :
  key_errors_only (update k f g).
Proof.
  unfold update. apply bind_key_errors; [apply get_key_errors|]. discriminate.
Qed.

Lemma apply_key_errors (b : Behavior) (grid next : Grid) :
  key_errors_only (apply b grid next).
Proof.
  assert (G : forall b', b' <> CampBehavior ->
             key_errors_only
               (for_each
                  (fun nx item =>
                     if is_process_site b' (snd item)
                     then process_site b' grid nx (fst item) (snd item)
                     else Ok nx) grid next)).
  { intros b' Nb. apply for_each_key_errors. intros nx item.
    destruct (is_process_site b' (snd item)); [|discriminate].
    destruct b'; cbn [process_site]; [| |congruence].
    - apply bind_key_errors.
      { unfold ranked_neighbors. apply bind_key_errors; [|discriminate].
        apply map_result_key_errors. intros n. unfold rank_key.
        apply bind_key_errors; [|discriminate].
        apply bind_key_errors; [apply get_key_errors | discriminate]. }
      intros l. apply bind_key_errors.
      { unfold total_camp_of. apply bind_key_errors; [|discriminate].
        apply map_result_key_errors. intros n.
        apply bind_key_errors; [apply get_key_errors | discriminate]. }
      intros tc. apply for_each_key_errors. intros nx' n.
      apply bind_key_errors; [|intros; apply update_key_errors].
      unfold weight. destruct (num_ltb 0 tc); [|discriminate].
      apply bind_key_errors; [apply get_key_errors | discriminate].
    - apply bind_key_errors; intros; apply update_key_errors. }
  destruct b; cbn [apply]; try (apply G; discriminate).
  destruct (camp_spread_Ok grid) as (nc & -> & _). cbn [bind].
  apply for_each_key_errors. intros; apply update_key_errors.
Qed.

Lemma step_raises_KeyError (self : Simulation) :
  current_grid self <> [] -> exists k, snd (step self) = Raise (KeyError k).
Proof.
  intros NE. unfold step. cbn [current_grid].
  destruct (apply_behaviors_raises (current_grid self) NE) as [e R].
  rewrite R. cbn [bind snd]. destruct e as [k|]; [eauto|].
  exfalso. revert R. unfold apply_behaviors.
  apply for_each_key_errors. intros; apply apply_key_errors.
Qed.

(** ** The step and the run on the seed *)

(** A zeroed next grid that holds every coordinate the three rules write to
    when they run on the expanded seed grid: all coordinates within two
    steps of the origin. *)
Definition seed_next_grid : Grid :=
  fresh_next_grid
    (GridUtils.expand_grid (GridUtils.expand_grid initialize_grid)).

(** C1 (not met by the code): [step] builds the next grid from the keys the
    current grid has before [expand_grid] runs, so the next grid lacks the
    keys the expansion adds.  On the seed grid the next grid has the single
    key (0,0) while the expanded grid has five keys, and the first write of
    [MoldBehavior] raises [KeyError] for (-1,0).  The same happens on every
    non-empty grid: the step raises [KeyError] and never completes. *)
Theorem step_misses_expanded_keys :
  Dict.keys (fresh_next_grid initialize_grid) = [(0, 0)%Z]
  /\ Dict.keys (GridUtils.expand_grid initialize_grid)
     = [(0, 0); (-1, 0); (1, 0); (0, -1); (0, 1)]%Z
  /\ step new_simulation
     = ({| current_grid := GridUtils.expand_grid initialize_grid;
           history := [] |},
        Raise (KeyError (-1, 0)%Z))
  /\ (forall self, current_grid self <> [] ->
        exists k, snd (step self) = Raise (KeyError k)).
Proof.
  split; [reflexivity|]. split; [reflexivity|]. split; [struct_eq|].
  exact step_raises_KeyError.
Qed.

Lemma step_seed_with_history (h : list Grid) :
  step {| current_grid := initialize_grid; history := h |}
  = ({| current_grid := GridUtils.expand_grid initialize_grid; history := h |},
     Raise (KeyError (-1, 0)%Z)).
Proof.
  assert (E : apply_behaviors (GridUtils.expand_grid initialize_grid)
                (fresh_next_grid initialize_grid)
              = Raise (KeyError (-1, 0)%Z)) by struct_eq.
  unfold step. cbn [current_grid history]. rewrite E. reflexivity.
Qed.

(** C7 (not met by the code): on a new simulation [run(n)] with [n >= 1]
    appends the initial grid to the history and then raises [KeyError] in its
    first step; the history is left with that one snapshot, whatever [n]
    is. *)
Theorem run_stops_in_first_step (p : positive) :
  run (Z.pos p) new_simulation
  = ({| current_grid := GridUtils.expand_grid initialize_grid;
        history := [initialize_grid] |},
     Raise (KeyError (-1, 0)%Z))
  /\ length (history (fst (run (Z.pos p) new_simulation))) = 1%nat.
Proof.
  assert (E : run (Z.pos p) new_simulation
              = ({| current_grid := GridUtils.expand_grid initialize_grid;
                    history := [initialize_grid] |},
                 Raise (KeyError (-1, 0)%Z))).
  { unfold run. destruct (Z.to_nat (Z.pos p)) as [|n] eqn:N; [lia|].
    cbn [run_loop new_simulation current_grid history app].
    now rewrite step_seed_with_history. }
  split; [exact E|]. now rewrite E.
Qed.

(** On the empty grid, the one grid whose step completes, [run] records one
    snapshot before each of its steps. *)
Lemma run_loop_on_empty_grid (n : nat) (h : list Grid) :
  run_loop n {| current_grid := []; history := h |}
  = ({| current_grid := []; history := h ++ repeat [] n |}, Ok tt).
Proof.
  revert h. induction n as [|n IH]; intros h; cbn [run_loop repeat].
  - now rewrite app_nil_r.
  - cbn [current_grid history].
    change (step {| current_grid := []; history := h ++ [[]] |})
      with ({| current_grid := @nil (coord * Site); history := h ++ [[]] |},
            @Ok unit tt).
    cbv iota beta. rewrite IH, <- app_assoc. reflexivity.
Qed.

(** C2 (what the rules compute): on the expanded seed grid the three rules,
    applied in order
    to a zeroed next grid that holds every coordinate they write to and
    followed by pruning, leave five entries: the origin with mold 0,
    food -10 and camp 15, and each of its four neighbors with mold 25 and
    camp 0. *)
Theorem seed_rules_outcome :
  (next <- apply_behaviors (GridUtils.expand_grid initialize_grid)
             seed_next_grid ;;
   GridUtils.prune_empty_sites next)
  = Ok [((0, 0)%Z, mkSite 0 (- num_of_Z 10) (num_of_Z 15) 0);
        ((-1, 0)%Z, mkSite (num_of_Z 25) 0 0 0);
        ((1, 0)%Z, mkSite (num_of_Z 25) 0 0 0);
        ((0, -1)%Z, mkSite (num_of_Z 25) 0 0 0);
        ((0, 1)%Z, mkSite (num_of_Z 25) 0 0 0)].
Proof. struct_eq. Qed.

(** C2 does not hold of the step: on the seed it does not complete, and when
    the rules do run to the end the origin holds food -10 and camp 15, not
    food -5 and camp 0. *)
Lemma seed_step_counterexample :
  ~ (exists self',
       step new_simulation = (self', Ok tt)
       /\ (forall n, In n (GridUtils.neighbors (0, 0)%Z) ->
             exists s, Dict.find n (current_grid self') = Some s
                       /\ mold s = num_of_Z 25 /\ camp s = 0)
       /\ (exists s, Dict.find (0, 0)%Z (current_grid self') = Some s
                     /\ food s = - num_of_Z 5 /\ camp s = 0))
  /\ (exists next s,
        apply_behaviors (GridUtils.expand_grid initialize_grid) seed_next_grid
        = Ok next
        /\ Dict.find (0, 0)%Z next = Some s
        /\ food s = - num_of_Z 10 /\ food s <> - num_of_Z 5
        /\ camp s = num_of_Z 15 /\ camp s <> 0).
Proof.
  split.
  - intros (self' & E & _). unfold new_simulation in E.
    rewrite (step_seed_with_history []) in E. discriminate.
  - eexists. eexists.
    split; [vm_compute; reflexivity|].
    split; [vm_compute; reflexivity|]. cbn [food camp].
    split; [num_eq|]. split.
    { intros H. apply (f_equal this) in H. vm_compute in H. discriminate. }
    split; [num_eq|].
    intros H. apply (f_equal this) in H. vm_compute in H. discriminate.
Qed.

(** C3 (what the rule writes): at the coordinate of a site the Food rule
    acts on,
    [FoodBehavior] subtracts [food_consumption_rate * mold] from the food
    already in the entry of the next grid and adds
    [food_consumption_rate * mold * amplification_factor] to its camp,
    whatever that entry holds, and leaves its mold and refractory alone.  The
    entry [step] builds is zeroed and the food of the current grid is not
    copied into it, so in a step the Food rule yields
    [next.food == 0 - food_consumption_rate * mold]. *)
Theorem food_rule_writes (cur : Grid) (c : coord) (s : Site) :
  Dict.wf cur ->
  Dict.find c cur = Some s ->
  is_process_site FoodBehavior s = true ->
  (exists next',
     apply FoodBehavior (GridUtils.expand_grid cur) (fresh_next_grid cur)
     = Ok next'
     /\ Dict.find c next'
        = Some {| mold := 0;
                  food := 0 - food_consumption_rate CONFIG * mold s;
                  camp := 0 + food_consumption_rate CONFIG * mold s
                              * amplification_factor CONFIG;
                  refractory := 0 |})
  /\ (forall next n,
        (forall c' s', In (c', s') cur ->
                       is_process_site FoodBehavior s' = true ->
                       Dict.mem c' next = true) ->
        Dict.find c next = Some n ->
        exists next',
          apply FoodBehavior cur next = Ok next'
          /\ Dict.find c next'
             = Some {| mold := mold n;
                       food := food n - food_consumption_rate CONFIG * mold s;
                       camp := camp n + food_consumption_rate CONFIG * mold s
                                        * amplification_factor CONFIG;
                       refractory := refractory n |}).
Proof.
  intros W E A. split.
  - destruct (apply_food_items (GridUtils.expand_grid cur)
                (GridUtils.expand_grid cur) (fresh_next_grid cur))
      as (next' & R & F).
    { now apply wf_expand_grid. }
    { intros c' s' I A'.
      assert (Nb : FoodBehavior <> CampBehavior) by discriminate.
      pose proof (active_in_expanded FoodBehavior cur c' s' Nb W I A') as E'.
      unfold Dict.mem. now rewrite find_fresh_next_grid, E'. }
    exists next'. split; [exact R|].
    rewrite F, find_fresh_next_grid, E. cbn [option_map].
    unfold food_effect. now rewrite (find_expand_old _ _ _ E), A.
  - intros next n H En.
    destruct (apply_food_items cur cur next W H) as (next' & R & F).
    exists next'. split; [exact R|].
    rewrite F, En. cbn [option_map]. unfold food_effect. now rewrite E, A.
Qed.

(** C3 with the food of the current grid carried over does not hold: on the
    seed the Food rule leaves food -10 at the origin of the next grid, not
    5 - 0.1 * 100 = -5. *)
Lemma food_not_carried_over :
  exists next' s n,
    apply FoodBehavior (GridUtils.expand_grid initialize_grid)
      (fresh_next_grid initialize_grid) = Ok next'
    /\ Dict.find (0, 0)%Z initialize_grid = Some s
    /\ is_process_site FoodBehavior s = true
    /\ Dict.find (0, 0)%Z next' = Some n
    /\ food n = - num_of_Z 10
    /\ food n <> food s - food_consumption_rate CONFIG * mold s.
Proof.
  eexists. eexists. eexists.
  split; [vm_compute; reflexivity|]. split; [reflexivity|].
  split; [reflexivity|]. split; [vm_compute; reflexivity|].
  cbn [food mold]. split; [num_eq|].
  intros H. apply (f_equal this) in H. vm_compute in H. discriminate.
Qed.

(** ** Instances *)

(** The seed surrounded by four neighbors that hold camp 1, 2, 3 and 4. *)
Definition signal_grid : Grid :=
  [((0, 0)%Z, mkSite (num_of_Z 100) (num_of_Z 5) 0 0);
   ((-1, 0)%Z, mkSite 0 0 (num_of_Z 1) 0);
   ((1, 0)%Z, mkSite 0 0 (num_of_Z 2) 0);
   ((0, -1)%Z, mkSite 0 0 (num_of_Z 3) 0);
   ((0, 1)%Z, mkSite 0 0 (num_of_Z 4) 0)].

(** The seed surrounded by four zeroed neighbors. *)
Definition star_grid : Grid :=
  [((0, 0)%Z, mkSite (num_of_Z 100) (num_of_Z 5) 0 0);
   ((-1, 0)%Z, zero_site); ((1, 0)%Z, zero_site);
   ((0, -1)%Z, zero_site); ((0, 1)%Z, zero_site)].

Ltac num_lt := unfold Qclt, Qcle; vm_compute; first [reflexivity | discriminate].
Ltac each_neighbor I :=
  cbn in I; repeat (destruct I as [I|I]; [subst|]); [..|contradiction].
Ltac concrete_wf :=
  unfold Dict.wf; cbn; repeat constructor; cbn; intros H;
  repeat (destruct H as [H|H]; [discriminate H|]); exact H.

Lemma mem_expand_grid (grid : Grid) (c : coord) :
  borders grid c -> Dict.mem c (GridUtils.expand_grid grid) = true.
Proof.
  intros B. apply mem_find. destruct (Dict.find c grid) as [s|] eqn:E.
  - exists s. now apply find_expand_old.
  - exists zero_site. now apply find_expand_new.
Qed.

Lemma mem_fresh_next_grid (grid : Grid) (c : coord) :
  Dict.mem c (fresh_next_grid grid) = Dict.mem c grid.
Proof.
  unfold Dict.mem. rewrite find_fresh_next_grid.
  now destruct (Dict.find c grid).
Qed.

Definition seed_site : Site :=
  mkSite (num_of_Z 100) (num_of_Z 5) 0 0.

Lemma signal_grid_neighbors (n : coord) :
  In n (GridUtils.neighbors (0, 0)%Z) -> Dict.mem n signal_grid = true.
Proof. intros I. each_neighbor I; reflexivity. Defined.

Lemma star_grid_neighbors (n : coord) :
  In n (GridUtils.neighbors (0, 0)%Z) ->
  Dict.mem n star_grid = true
  /\ Dict.mem n (fresh_next_grid star_grid) = true.
Proof. intros I. each_neighbor I; split; reflexivity. Defined.

(** C3 at the seed grid. *)
Lemma food_rule_writes_witness :
  Dict.wf initialize_grid
  /\ Dict.find (0, 0)%Z initialize_grid = Some seed_site
  /\ is_process_site FoodBehavior seed_site = true
  /\ exists next',
       apply FoodBehavior (GridUtils.expand_grid initialize_grid)
         (fresh_next_grid initialize_grid) = Ok next'
       /\ Dict.find (0, 0)%Z next'
          = Some {| mold := 0;
                    food := 0 - food_consumption_rate CONFIG * mold seed_site;
                    camp := 0 + food_consumption_rate CONFIG * mold seed_site
                                * amplification_factor CONFIG;
                    refractory := 0 |}.
Proof.
  assert (W : Dict.wf initialize_grid) by concrete_wf.
  assert (E : Dict.find (0, 0)%Z initialize_grid = Some seed_site)
    by reflexivity.
  assert (A : is_process_site FoodBehavior seed_site = true)
    by (vm_compute; reflexivity).
  split; [exact W|]. split; [exact E|]. split; [exact A|].
  exact (proj1 (food_rule_writes initialize_grid (0, 0)%Z seed_site W E A)).
Defined.

(** C5 at the seed surrounded by zeroed neighbors. *)
Lemma mold_uniform_fallback_witness :
  0 < mold seed_site
  /\ exists next',
       process_site MoldBehavior star_grid (fresh_next_grid star_grid)
         (0, 0)%Z seed_site = Ok next'
       /\ forall n, In n (GridUtils.neighbors (0, 0)%Z) ->
            Dict.find n next'
            = option_map (add_mold (mold seed_site / num_of_Z 4))
                (Dict.find n (fresh_next_grid star_grid)).
Proof.
  assert (P : 0 < mold seed_site) by num_lt.
  split; [exact P|].
  destruct (mold_uniform_fallback star_grid (fresh_next_grid star_grid)
              (0, 0)%Z seed_site P)
    as (next' & E & F & _).
  - intros n I. exists zero_site. each_neighbor I; split; reflexivity.
  - intros n I. apply (star_grid_neighbors n I).
  - exists next'. split; assumption.
Defined.

(** C9 on the seed grid, and on the empty grid, the only grid that holds
    the neighbors of all its keys. *)
Lemma expand_grid_spec_witness :
  Dict.find (0, 0)%Z (GridUtils.expand_grid initialize_grid)
  = Dict.find (0, 0)%Z initialize_grid
  /\ Dict.find (1, 0)%Z (GridUtils.expand_grid initialize_grid)
     = Some zero_site
  /\ Dict.find (2, 0)%Z (GridUtils.expand_grid initialize_grid) = None
  /\ GridUtils.expand_grid [] = [].
Proof.
  destruct (expand_grid_spec initialize_grid) as (Old & New & Far & _).
  split; [apply Old; reflexivity|].
  split.
  { apply New; [reflexivity|]. exists (0, 0)%Z. cbn. tauto. }
  split.
  { apply Far; [reflexivity|]. intros (k & Ik & In').
    cbn in Ik. destruct Ik as [<-|[]]. cbn in In'.
    repeat (destruct In' as [In'|In']; [discriminate In'|]). exact In'. }
  apply (expand_grid_spec []). intros k n [].
Defined.

(** C10 on the seed surrounded by zeroed neighbors. *)
Lemma mold_behavior_conserves_mold_witness :
  (forall c s, In (c, s) star_grid -> 0 <= mold s)
  /\ (forall c s, In (c, s) (fresh_next_grid star_grid) -> mold s = 0)
  /\ exists next',
       apply MoldBehavior star_grid (fresh_next_grid star_grid) = Ok next'
       /\ total_mold next' = total_mold star_grid.
Proof.
  assert (Hpos : forall c s, In (c, s) star_grid -> 0 <= mold s).
  { intros c s I. cbn in I.
    repeat (destruct I as [I|I]; [injection I as <- <-; num_lt|]).
    contradiction. }
  assert (Hz : forall c s, In (c, s) (fresh_next_grid star_grid) -> mold s = 0).
  { intros c s I. cbn in I.
    repeat (destruct I as [I|I]; [injection I as <- <-; reflexivity|]).
    contradiction. }
  split; [exact Hpos|]. split; [exact Hz|].
  apply (mold_behavior_conserves_mold star_grid (fresh_next_grid star_grid));
    [exact Hpos| |exact Hz].
  intros c s I L n In'. cbn in I.
  destruct I as [I|I].
  - injection I as <- <-. apply (star_grid_neighbors n In').
  - exfalso. revert L.
    repeat (destruct I as [I|I];
            [injection I as <- <-; unfold Qclt; vm_compute; discriminate|]).
    contradiction.
Defined.

(** * Further properties of the code *)

(** ** The neighborhood *)

(** X1: [neighbors] returns four distinct coordinates, exactly those at
    Manhattan distance 1 from the cell; the cell is not among them, and
    being a neighbor is symmetric. *)
Theorem neighbors_are_the_adjacent_cells (c : coord) :
  length (GridUtils.neighbors c) = 4%nat
  /\ NoDup (GridUtils.neighbors c)
  /\ (forall n, In n (GridUtils.neighbors c)
                <-> (Z.abs (fst n - fst c) + Z.abs (snd n - snd c) = 1)%Z)
  /\ (forall n, In n (GridUtils.neighbors c) -> In c (GridUtils.neighbors n)).
Proof.
  assert (D : forall a n, In n (GridUtils.neighbors a)
                <-> (Z.abs (fst n - fst a) + Z.abs (snd n - snd a) = 1)%Z).
  { intros [x y] [nx ny]. cbn. split.
    - intros [H|[H|[H|[H|[]]]]]; injection H as <- <-; lia.
    - intros H.
      assert (E : ((nx = x - 1 /\ ny = y) \/ (nx = x + 1 /\ ny = y)
                   \/ (nx = x /\ ny = y - 1) \/ (nx = x /\ ny = y + 1))%Z)
        by lia.
      destruct E as [[-> ->]|[[-> ->]|[[-> ->]|[-> ->]]]]; tauto. }
  split; [apply neighbors_length|]. split; [apply neighbors_NoDup|].
  split; [apply D|].
  intros n I. apply D. apply D in I. lia.
Qed.

(** ** Expansion and pruning together *)

Lemma filter_nonzero_zeros (added : list coord) :
  filter nonzero (map (fun c => (c, zero_site)) added) = [].
Proof. induction added as [|a added IH]; cbn; [reflexivity | exact IH]. Qed.

Lemma filter_nonzero_id (grid : Grid) :
  (forall c s, In (c, s) grid -> all_zero s = false) ->
  filter nonzero grid = grid.
Proof.
  induction grid as [|[c s] grid IH]; intros H; cbn [filter]; [reflexivity|].
  unfold nonzero at 1. cbn [snd]. rewrite (H c s) by (now left). cbn [negb].
  f_equal. apply IH. intros c' s' I. apply (H c' s'). now right.
Qed.

Lemma wf_filter (f : coord * Site -> bool) (grid : Grid) :
  Dict.wf grid -> Dict.wf (filter f grid).
Proof.
  unfold Dict.wf, Dict.keys.
  induction grid as [|[c s] grid IH]; cbn [filter map]; [auto|].
  intros N. inversion N as [|? ? N0 N1]; subst.
  destruct (f (c, s)); cbn [map fst]; [|auto].
  constructor; [|auto]. intros I. apply N0.
  apply in_map_iff in I as (x & E & I). apply filter_In in I as [I _].
  rewrite <- E. now apply in_map.
Qed.

(** X2: pruning is idempotent: on a grid with unique keys
    [prune_empty_sites] completes, its result has unique keys and no entry
    with four zero fields, and pruning the result again changes nothing; a
    grid without such an entry is returned as it is. *)
Theorem prune_is_idempotent (grid : Grid) :
  Dict.wf grid ->
  exists pruned,
    GridUtils.prune_empty_sites grid = Ok pruned
    /\ Dict.wf pruned
    /\ (forall c s, In (c, s) pruned <-> In (c, s) grid /\ all_zero s = false)
    /\ GridUtils.prune_empty_sites pruned = Ok pruned
    /\ ((forall c s, In (c, s) grid -> all_zero s = false) -> pruned = grid).
Proof.
  intros W. exists (filter nonzero grid).
  split; [now apply prune_empty_sites_filter|].
  split; [now apply wf_filter|].
  split; [intros c s; apply filter_nonzero|].
  split.
  - rewrite prune_empty_sites_filter by now apply wf_filter.
    f_equal. apply filter_nonzero_id. intros c s I.
    now apply filter_nonzero in I.
  - apply filter_nonzero_id.
Qed.

(** X3: expansion followed by pruning is the identity on a grid with unique
    keys and no entry with four zero fields: what [expand_grid] adds is
    exactly what [prune_empty_sites] removes. *)
Theorem prune_undoes_expand (grid : Grid) :
  Dict.wf grid ->
  (forall c s, In (c, s) grid -> all_zero s = false) ->
  GridUtils.prune_empty_sites (GridUtils.expand_grid grid) = Ok grid.
Proof.
  intros W H.
  rewrite prune_empty_sites_filter by now apply wf_expand_grid.
  destruct (expand_grid_appends grid) as (added & ->).
  rewrite filter_app, filter_nonzero_zeros, app_nil_r.
  f_equal. now apply filter_nonzero_id.
Qed.

Lemma expand_grid_adds_key (grid : Grid) :
  grid <> [] ->
  (length grid < length (GridUtils.expand_grid grid))%nat
  /\ exists c, Dict.find c grid = None
               /\ Dict.find c (GridUtils.expand_grid grid) = Some zero_site.
Proof.
  intros NE.
  destruct (exists_rightmost (Dict.keys grid)) as (k & Ik & Mk).
  { destruct grid; [congruence | discriminate]. }
  assert (N : Dict.find (fst k + 1, snd k)%Z grid = None).
  { apply mem_false_find.
    destruct (Dict.mem (fst k + 1, snd k)%Z grid) eqn:M; [|reflexivity].
    apply mem_keys in M. specialize (Mk _ M). cbn [fst] in Mk. lia. }
  assert (F : Dict.find (fst k + 1, snd k)%Z (GridUtils.expand_grid grid)
              = Some zero_site).
  { apply find_expand_new; [exact N|]. exists k. split; [exact Ik|].
    destruct k as [x y]. cbn. tauto. }
  split; [|eauto].
  destruct (expand_grid_appends grid) as (added & E). rewrite E in F |- *.
  rewrite length_app, length_map.
  destruct added as [|a added]; [|cbn [length]; lia].
  cbn [map] in F. rewrite app_nil_r in F. congruence.
Qed.

(** X4: [expand_grid] never reaches a fixed point on a non-empty grid: it
    adds at least one key (the cell to the right of a rightmost key is
    always new), so the grid the simulation reads grows with every call.
    The empty grid stays empty. *)
Theorem expand_grid_grows (grid : Grid) :
  (grid <> [] ->
   (length grid < length (GridUtils.expand_grid grid))%nat
   /\ exists c, Dict.find c grid = None
                /\ Dict.find c (GridUtils.expand_grid grid) = Some zero_site)
  /\ (grid = [] -> GridUtils.expand_grid grid = []).
Proof.
  split; [apply expand_grid_adds_key|]. now intros ->.
Qed.

(** ** Ranking the neighbors *)

From Stdlib Require Import Sorted Lqa.

(** [a] ranks before [b]: more camp, or as much camp and no more mold. *)
Definition ranks_before (grid : Grid) (a b : coord) : Prop :=
  camp (site_at grid b) < camp (site_at grid a)
  \/ (camp (site_at grid a) = camp (site_at grid b)
      /\ mold (site_at grid a) <= mold (site_at grid b)).

Lemma Qc_eq_Qeq (x y : number) : x = y <-> (this x == this y)%Q.
Proof.
  split.
  - intros ->. reflexivity.
  - apply Qc_is_canon.
Qed.

Lemma key_ltb_true (a b : number * number) :
  key_ltb a b = true
  <-> fst a < fst b \/ (fst a = fst b /\ snd a < snd b).
Proof.
  unfold key_ltb. destruct (num_eqb (fst a) (fst b)) eqn:E.
  - apply num_eqb_eq in E. rewrite num_ltb_lt. split; [auto|].
    intros [L|[_ L]]; [|exact L].
    rewrite E in L. now apply Qclt_not_eq in L.
  - rewrite num_ltb_lt. split; [auto|].
    intros [L|[E' _]]; [exact L|].
    apply num_eqb_eq in E'. congruence.
Qed.

Lemma key_ltb_false (a b : number * number) :
  key_ltb a b = false
  <-> fst b < fst a \/ (fst a = fst b /\ snd b <= snd a).
Proof.
  destruct (key_ltb a b) eqn:K.
  - apply key_ltb_true in K. split; [discriminate|]. intros H. exfalso.
    revert K H. unfold Qclt, Qcle. rewrite !Qc_eq_Qeq. lra.
  - split; [intros _|reflexivity].
    assert (N : ~ (fst a < fst b \/ (fst a = fst b /\ snd a < snd b))).
    { rewrite <- key_ltb_true. congruence. }
    revert N. unfold Qclt, Qcle. rewrite !Qc_eq_Qeq. lra.
Qed.

Lemma key_le_trans (a b c : number * number) :
  key_ltb b a = false -> key_ltb c b = false -> key_ltb c a = false.
Proof.
  rewrite !key_ltb_false. unfold Qclt, Qcle. rewrite !Qc_eq_Qeq. lra.
Qed.

Lemma key_lt_le (a b : number * number) :
  key_ltb a b = true -> key_ltb b a = false.
Proof.
  rewrite key_ltb_true, key_ltb_false. unfold Qclt, Qcle.
  rewrite !Qc_eq_Qeq. lra.
Qed.

Lemma insert_ranked_sorted x l :
  StronglySorted (fun a b => key_ltb (fst b) (fst a) = false) l ->
  StronglySorted (fun a b => key_ltb (fst b) (fst a) = false)
    (insert_ranked x l).
Proof.
  induction l as [|y l IH]; intros S; cbn [insert_ranked].
  - repeat constructor.
  - apply StronglySorted_inv in S as [S F].
    destruct (key_ltb (fst y) (fst x)) eqn:K.
    + constructor; [now apply IH|].
      apply (Permutation_Forall (Permutation_sym (insert_ranked_perm x l))).
      constructor; [|exact F]. now apply key_lt_le.
    + constructor; [now constructor|].
      constructor; [exact K|].
      apply (Forall_impl _ (P := fun b => key_ltb (fst b) (fst y) = false));
        [|exact F].
      intros z L. exact (key_le_trans _ _ _ K L).
Qed.

Lemma sorted_fold_insert l :
  StronglySorted (fun a b => key_ltb (fst b) (fst a) = false)
    (fold_right insert_ranked [] l).
Proof.
  induction l as [|x l IH]; cbn [fold_right]; [constructor|].
  now apply insert_ranked_sorted.
Qed.

Lemma StronglySorted_map {A B : Type} (f : A -> B) (R : B -> B -> Prop)
  (l : list A) :
  StronglySorted (fun a b => R (f a) (f b)) l -> StronglySorted R (map f l).
Proof.
  induction 1 as [|a l S IH F]; cbn [map]; constructor; [exact IH|].
  apply Forall_map. exact F.
Qed.

Lemma StronglySorted_impl {A : Type} (R R' : A -> A -> Prop) (P : A -> Prop)
  (l : list A) :
  (forall a b, P a -> P b -> R a b -> R' a b) ->
  Forall P l -> StronglySorted R l -> StronglySorted R' l.
Proof.
  intros H FP. induction 1 as [|a l S IH F]; constructor.
  - apply IH. now inversion FP.
  - inversion FP as [|? ? Pa Pl]; subst.
    rewrite Forall_forall in *. intros b I. apply H; auto.
Qed.

(** X5: when the four neighbors of [c] are keys of the grid,
    [ranked_neighbors] returns them, each once, ordered by descending camp
    and, among equal camp, by ascending mold. *)
Theorem ranked_neighbors_sorted (grid : Grid) (c : coord) :
  (forall n, In n (GridUtils.neighbors c) -> Dict.mem n grid = true) ->
  exists l,
    ranked_neighbors grid c = Ok l
    /\ Permutation l (GridUtils.neighbors c)
    /\ StronglySorted (ranks_before grid) l.
Proof.
  intros H. unfold ranked_neighbors.
  rewrite (map_result_pure _
             (fun n => ((- camp (site_at grid n), mold (site_at grid n)), n))).
  2:{ intros n I. unfold rank_key. rewrite (get_site_at _ _ (H n I)).
      reflexivity. }
  cbn [bind]. eexists. split; [reflexivity|]. split.
  { rewrite sorted_by_key_perm, map_map. cbn. now rewrite map_id. }
  unfold sorted_by_key. apply StronglySorted_map.
  set (keyed := map _ (GridUtils.neighbors c)).
  apply (StronglySorted_impl
           (fun a b => key_ltb (fst b) (fst a) = false) _
           (fun x => fst x = (- camp (site_at grid (snd x)),
                              mold (site_at grid (snd x))))).
  - intros a b Ea Eb K. apply key_ltb_false in K. rewrite Ea, Eb in K.
    cbn [fst snd] in K. unfold ranks_before. revert K.
    unfold Qclt, Qcle. rewrite !Qc_eq_Qeq.
    assert (O : forall x : number, (this (- x) == - this x)%Q).
    { intros x. unfold Qcopp, Q2Qc. cbn [this]. apply Qred_correct. }
    rewrite !O. lra.
  - assert (PK : Permutation keyed (fold_right insert_ranked [] keyed)).
    { clear. induction keyed as [|x l IH]; cbn [fold_right]; [constructor|].
      rewrite insert_ranked_perm. now constructor. }
    apply (Permutation_Forall PK).
    unfold keyed. apply Forall_map, Forall_forall. reflexivity.
  - apply sorted_fold_insert.
Qed.

Lemma map_result_Ok_inv {A B : Type} (f : A -> result B) (l : list A)
  (bs : list B) :
  map_result f l = Ok bs -> forall a, In a l -> exists b, f a = Ok b.
Proof.
  revert bs. induction l as [|a l IH]; intros bs; cbn [map_result].
  - intros _ a [].
  - intros H. apply bind_Ok in H as (b & E & H).
    apply bind_Ok in H as (bs' & E' & _).
    intros a' [<-|I]; [eauto | now apply (IH bs')].
Qed.

Lemma map_result_first_failure {A B : Type} (f : A -> result B)
  (pre post : list A) (a : A) (e : exn) :
  (forall x, In x pre -> exists b, f x = Ok b) ->
  f a = Raise e ->
  map_result f (pre ++ a :: post) = Raise e.
Proof.
  intros H E. induction pre as [|x pre IH]; cbn [app map_result].
  - now rewrite E.
  - destruct (H x (or_introl eq_refl)) as [b ->]. cbn [bind].
    rewrite IH; [reflexivity|]. intros y I. apply H. now right.
Qed.

Lemma ranked_neighbors_Ok_inv (grid : Grid) (c : coord) (l : list coord) :
  ranked_neighbors grid c = Ok l ->
  forall n, In n (GridUtils.neighbors c) -> Dict.mem n grid = true.
Proof.
  intros R n I. unfold ranked_neighbors in R.
  apply bind_Ok in R as (keyed & M & _).
  destruct (map_result_Ok_inv _ _ _ M n I) as [b E].
  unfold rank_key in E. apply bind_Ok in E as (k & E & _).
  apply bind_Ok in E as (s & E & _).
  unfold Dict.get in E. unfold Dict.mem.
  destruct (Dict.find n grid); [reflexivity | discriminate].
Qed.

(** X6: [ranked_neighbors] completes only when all four neighbors are keys
    of the grid; otherwise it raises [KeyError] for the first neighbor, in
    the order west, east, south, north, that is not a key. *)
Theorem ranked_neighbors_missing_key (grid : Grid) (c : coord) :
  (forall l, ranked_neighbors grid c = Ok l ->
     forall n, In n (GridUtils.neighbors c) -> Dict.mem n grid = true)
  /\ (forall pre n post,
        GridUtils.neighbors c = pre ++ n :: post ->
        (forall m, In m pre -> Dict.mem m grid = true) ->
        Dict.mem n grid = false ->
        ranked_neighbors grid c = Raise (KeyError n)).
Proof.
  split; [apply ranked_neighbors_Ok_inv|].
  intros pre n post E Hpre Hn. unfold ranked_neighbors. rewrite E.
  rewrite (map_result_first_failure _ pre post n (KeyError n)).
  - reflexivity.
  - intros m I. unfold rank_key. rewrite (get_site_at _ _ (Hpre m I)).
    cbn [bind]. eauto.
  - unfold rank_key, Dict.get. apply mem_false_find in Hn.
    now rewrite Hn.
Qed.

(** ** The Mold rule, site by site and on a grid *)

(** X7: for a site at [c] whose four neighbors are keys of both grids,
    [MoldBehavior.process_site] completes and adds [mold * weight] to the
    mold of each neighbor, once: the weight of a neighbor is its camp
    divided by the camp total of the four neighbors, summed in ranked
    order, when that total is positive, and 1/4 otherwise.  No other entry
    of the next grid changes. *)
Theorem mold_share_per_neighbor (grid next : Grid) (c : coord) (s : Site) :
  (forall n, In n (GridUtils.neighbors c) -> Dict.mem n grid = true) ->
  (forall n, In n (GridUtils.neighbors c) -> Dict.mem n next = true) ->
  exists l next',
    ranked_neighbors grid c = Ok l
    /\ Permutation l (GridUtils.neighbors c)
    /\ process_site MoldBehavior grid next c s = Ok next'
    /\ (forall n, In n (GridUtils.neighbors c) ->
          Dict.find n next'
          = option_map
              (add_mold
                 (mold s
                  * (let total_camp :=
                       fold_left Qcplus
                         (map (fun m => camp (site_at grid m)) l) 0 in
                     if num_ltb 0 total_camp
                     then camp (site_at grid n) / total_camp
                     else 1 / num_of_Z 4)))
              (Dict.find n next))
    /\ (forall k, ~ In k (GridUtils.neighbors c) ->
          Dict.find k next' = Dict.find k next).
Proof.
  intros Hg Hn. destruct (ranked_neighbors_Ok grid c Hg) as (l & R & P).
  assert (Hl : forall n, In n l -> In n (GridUtils.neighbors c)).
  { intros n I. now apply (Permutation_in _ P). }
  assert (L : length l = 4%nat).
  { rewrite (Permutation_length P). apply neighbors_length. }
  rewrite (process_site_mold grid next c s l R) by (intros; auto).
  destruct (updates_Ok (fun n => n)
              (fun n => add_mold (mold s * weight_of grid l n)) l next)
    as (next' & U & _ & F); [intros; auto|].
  assert (N : NoDup (map (fun n : coord => n) l)).
  { rewrite map_id. apply (Permutation_NoDup (Permutation_sym P)).
    apply neighbors_NoDup. }
  exists l, next'. split; [exact R|]. split; [exact P|]. split; [exact U|].
  split.
  - intros n I. rewrite F.
    assert (Il : In n l) by now apply (Permutation_in _ (Permutation_sym P)).
    destruct (Dict.find n next) as [s0|]; [|reflexivity]. cbn [option_map].
    rewrite (effect_once _ _ n l n s0 N Il eq_refl).
    unfold weight_of. cbv zeta. now rewrite L.
  - intros k I. rewrite F.
    destruct (Dict.find k next) as [s0|]; [|reflexivity]. cbn [option_map].
    rewrite effect_absent; [reflexivity|].
    rewrite map_id. intros Il. apply I, Hl, Il.
Qed.






(** ** The Food and Camp rules on a grid *)

Lemma apply_food_items_inv (grid items next next' : Grid) :
  for_each
    (fun nx item =>
       if is_process_site FoodBehavior (snd item)
       then process_site FoodBehavior grid nx (fst item) (snd item)
       else Ok nx)
    items next = Ok next' ->
  forall c s, In (c, s) items -> is_process_site FoodBehavior s = true ->
              Dict.mem c next = true.
Proof.
  revert next. induction items as [|[k s0] items IH]; intros next E.
  - intros c s [].
  - cbn [for_each fst snd] in E. apply bind_Ok in E as (n1 & B & E).
    assert (K : Dict.keys n1 = Dict.keys next).
    { destruct (is_process_site FoodBehavior s0).
      - now apply process_site_keys in B.
      - now injection B as <-. }
    intros c s [I|I] A.
    + injection I as <- <-. rewrite A in B. cbn [process_site] in B.
      apply bind_Ok in B as (n0 & U & _).
      apply update_inv in U as (s1 & F & _). apply mem_find. eauto.
    + apply mem_keys. rewrite <- K. apply mem_keys.
      now apply (IH n1 E c s I A).
Qed.



(** ** Exceptions *)

Lemma del_key_errors {V : Type} (k : coord) (d : Dict.t V) :
  key_errors_only (Dict.del k d).
Proof.
  induction d as [|[k' v] d IH]; cbn [Dict.del]; [discriminate|].
  destruct (coord_eqb k' k); [discriminate|].
  apply bind_key_errors; [exact IH | discriminate].
Qed.

Lemma step_key_errors (self : Simulation) : key_errors_only (snd (step self)).
Proof.
  unfold step. set (r := bind _ _).
  assert (K : key_errors_only r).
  { unfold r. apply bind_key_errors.
    - unfold apply_behaviors. apply for_each_key_errors.
      intros; apply apply_key_errors.
    - intros next. unfold GridUtils.prune_empty_sites.
      apply for_each_key_errors. intros; apply del_key_errors. }
  destruct r as [next|e]; cbn [snd]; [discriminate|].
  intros [= ->]. now apply K.
Qed.

Lemma run_loop_key_errors (n : nat) (self : Simulation) :
  key_errors_only (snd (run_loop n self)).
Proof.
  revert self. induction n as [|n IH]; intros self; cbn [run_loop].
  - discriminate.
  - set (self1 := {| current_grid := current_grid self;
                     history := history self ++ [current_grid self] |}).
    pose proof (step_key_errors self1) as K.
    destruct (step self1) as [self2 [u|e]]; [apply IH | exact K].
Qed.

(** X11: [NotImplementedError], which the abstract [Behavior.process_site]
    raises and [CampBehavior] inherits, is never raised by the program:
    [CampBehavior] overrides [apply] and the two other behaviors override
    [process_site], so neither [apply] of a behavior nor [step] nor [run]
    ends in it. *)
Theorem not_implemented_is_never_raised :
  (forall b grid next, apply b grid next <> Raise NotImplementedError)
  /\ (forall self, snd (step self) <> Raise NotImplementedError)
  /\ (forall steps self, snd (run steps self) <> Raise NotImplementedError).
Proof.
  split; [exact apply_key_errors|]. split; [exact step_key_errors|].
  intros steps self. apply run_loop_key_errors.
Qed.

(** ** What the rules leave alone, and in which direction they write *)

(** A relation between the old and the new state of an entry that every
    single write keeps is kept by a whole loop of writes. *)
Section Related.
Variable R : Site -> Site -> Prop.
Hypothesis R_refl : forall s, R s s.
Hypothesis R_trans : forall a b c, R a b -> R b c -> R a c.

Definition related (g g' : Grid) : Prop :=
  forall c,
    match Dict.find c g, Dict.find c g' with
    | Some old, Some new => R old new
    | None, None => True
    | _, _ => False
    end.

Lemma related_refl (g : Grid) : related g g.
Proof. intros c. destruct (Dict.find c g); auto. Qed.

Lemma related_trans (g1 g2 g3 : Grid) :
  related g1 g2 -> related g2 g3 -> related g1 g3.
Proof.
  intros H1 H2 c. specialize (H1 c). specialize (H2 c).
  destruct (Dict.find c g1), (Dict.find c g2), (Dict.find c g3);
    try contradiction; eauto.
Qed.

Lemma update_related (k : coord) (f : Site -> Site) (g g' : Grid) :
  (forall s, Dict.find k g = Some s -> R s (f s)) ->
  update k f g = Ok g' -> related g g'.
Proof.
  intros H U. apply update_inv in U as (s & E & ->). intros c.
  rewrite find_set. destruct (coord_eqb k c) eqn:Ek.
  - apply coord_eqb_eq in Ek. subst c. rewrite E. now apply H.
  - destruct (Dict.find c g); auto.
Qed.

Lemma for_each_related {A : Type} (body : Grid -> A -> result Grid)
  (l : list A) :
  (forall g a g', In a l -> body g a = Ok g' -> related g g') ->
  forall g g', for_each body l g = Ok g' -> related g g'.
Proof.
  induction l as [|a l IH]; intros H g g'; cbn [for_each].
  - intros [= <-]. apply related_refl.
  - intros E. apply bind_Ok in E as (g1 & B & E).
    apply (related_trans g g1 g').
    + apply (H g a g1); [now left | exact B].
    + apply IH; [|exact E]. intros g0 a0 g0' I. apply H. now right.
Qed.
End Related.

(** The fields a behavior does not write. *)
Definition untouched (b : Behavior) (old new : Site) : Prop :=
  refractory new = refractory old
  /\ match b with
     | MoldBehavior => food new = food old /\ camp new = camp old
     | FoodBehavior => mold new = mold old
     | CampBehavior => mold new = mold old /\ food new = food old
     end.

Lemma untouched_refl (b : Behavior) (s : Site) : untouched b s s.
Proof. unfold untouched. destruct b; repeat split. Qed.

Lemma untouched_trans (b : Behavior) (s1 s2 s3 : Site) :
  untouched b s1 s2 -> untouched b s2 s3 -> untouched b s1 s3.
Proof.
  unfold untouched. destruct b; intuition congruence.
Qed.

Lemma apply_untouched (b : Behavior) (grid next next' : Grid) :
  apply b grid next = Ok next' -> related (untouched b) next next'.
Proof.
  assert (W : forall b k f g g',
             (forall s, untouched b s (f s)) ->
             update k f g = Ok g' -> related (untouched b) g g').
  { intros b0 k f g g' H U.
    exact (update_related _ (untouched_refl b0) k f g g' (fun s _ => H s) U). }
  destruct b; cbn [apply]; intros E.
  - eapply for_each_related;
      [apply untouched_refl | apply untouched_trans | | exact E].
    intros g item g' _. cbv beta. destruct (is_process_site MoldBehavior (snd item)).
    + cbn [process_site]. intros P. apply bind_Ok in P as (l & _ & P).
      apply bind_Ok in P as (tc & _ & P).
      eapply for_each_related;
        [apply untouched_refl | apply untouched_trans | | exact P].
      intros g0 n g0' _ U. cbv beta in U. apply bind_Ok in U as (w & _ & U).
      apply (W MoldBehavior) in U; [exact U|].
      intros s. unfold untouched. cbn. repeat split.
    + intros [= <-]. apply related_refl, untouched_refl.
  - eapply for_each_related;
      [apply untouched_refl | apply untouched_trans | | exact E].
    intros g item g' _. cbv beta. destruct (is_process_site FoodBehavior (snd item)).
    + cbn [process_site]. intros P. apply bind_Ok in P as (g1 & U1 & U2).
      apply (related_trans _ (untouched_trans _) g g1 g').
      * apply (W FoodBehavior) in U1; [exact U1|].
        intros s. unfold untouched. cbn. repeat split.
      * apply (W FoodBehavior) in U2; [exact U2|].
        intros s. unfold untouched. cbn. repeat split.
    + intros [= <-]. apply related_refl, untouched_refl.
  - apply bind_Ok in E as (nc & _ & E).
    eapply for_each_related;
      [apply untouched_refl | apply untouched_trans | | exact E].
    intros g item g' _ U. cbv beta in U.
    apply (W CampBehavior) in U; [exact U|].
    intros s. unfold untouched. cbn. repeat split.
Qed.

(** X12: a behavior that completes keeps the keys of the next grid, in
    their order, and writes its own fields only: [MoldBehavior] leaves food
    and camp of every entry as they were, [FoodBehavior] the mold,
    [CampBehavior] mold and food, and none of them touches refractory. *)
Theorem behaviors_write_their_fields_only (b : Behavior)
  (grid next next' : Grid) :
  apply b grid next = Ok next' ->
  Dict.keys next' = Dict.keys next
  /\ forall c old, Dict.find c next = Some old ->
       exists new,
         Dict.find c next' = Some new
         /\ refractory new = refractory old
         /\ match b with
            | MoldBehavior => food new = food old /\ camp new = camp old
            | FoodBehavior => mold new = mold old
            | CampBehavior => mold new = mold old /\ food new = food old
            end.
Proof.
  intros E. split; [now apply apply_keys in E|].
  intros c old F. pose proof (apply_untouched b grid next next' E c) as U.
  rewrite F in U. destruct (Dict.find c next') as [new|]; [|contradiction].
  exists new. split; [reflexivity | exact U].
Qed.

(** Arithmetic of non-negative numbers. *)

Lemma this_plus (x y : number) : (this (x + y) == this x + this y)%Q.
Proof. unfold Qcplus, Q2Qc. cbn [this]. apply Qred_correct. Qed.

Lemma this_mult (x y : number) : (this (x * y) == this x * this y)%Q.
Proof. unfold Qcmult, Q2Qc. cbn [this]. apply Qred_correct. Qed.

Lemma this_opp (x : number) : (this (- x) == - this x)%Q.
Proof. unfold Qcopp, Q2Qc. cbn [this]. apply Qred_correct. Qed.

Lemma this_inv (x : number) : (this (/ x) == / this x)%Q.
Proof. unfold Qcinv, Q2Qc. cbn [this]. apply Qred_correct. Qed.

Lemma nonneg_mult (a b : number) : 0 <= a -> 0 <= b -> 0 <= a * b.
Proof.
  unfold Qcle. rewrite this_mult. change (this 0) with 0%Q.
  apply Qmult_le_0_compat.
Qed.

Lemma nonneg_inv (a : number) : 0 <= a -> 0 <= / a.
Proof.
  unfold Qcle. rewrite this_inv. change (this 0) with 0%Q.
  apply Qinv_le_0_compat.
Qed.

Lemma nonneg_div (a b : number) : 0 <= a -> 0 <= b -> 0 <= a / b.
Proof. intros A B. apply nonneg_mult; [exact A | now apply nonneg_inv]. Qed.

Lemma le_plus_nonneg (a x : number) : 0 <= x -> a <= a + x.
Proof.
  unfold Qcle. rewrite this_plus. change (this 0) with 0%Q. lra.
Qed.

Lemma minus_nonneg_le (a x : number) : 0 <= x -> a - x <= a.
Proof.
  unfold Qcle, Qcminus. rewrite this_plus, this_opp.
  change (this 0) with 0%Q. lra.
Qed.

Lemma nonneg_of_nat (n : nat) : 0 <= num_of_nat n.
Proof.
  unfold Qcle. change (this 0) with 0%Q.
  unfold num_of_nat, num_of_Z, Q2Qc. cbn [this].
  rewrite (Qred_correct (inject_Z (Z.of_nat n))).
  unfold Qle, inject_Z. cbn [Qnum Qden]. lia.
Qed.

Lemma qsum_nonneg (l : list number) :
  (forall x, In x l -> 0 <= x) -> 0 <= qsum l.
Proof.
  induction l as [|x l IH]; intros H.
  - rewrite qsum_nil. apply Qcle_refl.
  - rewrite qsum_cons.
    apply (Qcle_trans _ (qsum l)); [apply IH; intros; apply H; now right|].
    rewrite Qcplus_comm. apply le_plus_nonneg, H. now left.
Qed.

Lemma nonneg_constants :
  0 <= food_consumption_rate CONFIG
  /\ 0 <= amplification_factor CONFIG
  /\ 0 <= 1 - camp_decay CONFIG
  /\ 0 <= num_frac 1 4.
Proof. repeat split; unfold Qcle; vm_compute; discriminate. Qed.

(** The direction in which the rules move an entry of the next grid. *)
Definition grows (old new : Site) : Prop :=
  mold old <= mold new /\ camp old <= camp new /\ food new <= food old.

Lemma grows_refl (s : Site) : grows s s.
Proof. unfold grows. repeat split; apply Qcle_refl. Qed.

Lemma grows_trans (s1 s2 s3 : Site) : grows s1 s2 -> grows s2 s3 -> grows s1 s3.
Proof.
  unfold grows. intros (A1 & A2 & A3) (B1 & B2 & B3).
  repeat split; eapply Qcle_trans; eassumption.
Qed.

Lemma update_grows (k : coord) (f : Site -> Site) (g g' : Grid) :
  (forall s, grows s (f s)) -> update k f g = Ok g' -> related grows g g'.
Proof.
  intros H U. exact (update_related _ grows_refl k f g g' (fun s _ => H s) U).
Qed.

Lemma outflow_nonneg (s : Site) : 0 <= camp s -> 0 <= outflow s.
Proof.
  intros C. destruct nonneg_constants as (_ & _ & D & Q).
  unfold outflow. now repeat apply nonneg_mult.
Qed.

Lemma apply_grows (b : Behavior) (grid next next' : Grid) :
  (forall c s, In (c, s) grid -> 0 <= camp s) ->
  apply b grid next = Ok next' -> related grows next next'.
Proof.
  intros Hc. destruct nonneg_constants as (Rate & Amp & _ & _).
  destruct b; cbn [apply]; intros E.
  - eapply for_each_related; [apply grows_refl | apply grows_trans | | exact E].
    intros g item g' _. cbv beta.
    destruct (is_process_site MoldBehavior (snd item)) eqn:A.
    + cbn [is_process_site] in A. apply num_ltb_lt, Qclt_le_weak in A.
      cbn [process_site]. intros P. apply bind_Ok in P as (l & _ & P).
      apply bind_Ok in P as (tc & _ & P).
      eapply for_each_related;
        [apply grows_refl | apply grows_trans | | exact P].
      intros g0 n g0' _ U. cbv beta in U. apply bind_Ok in U as (w & Ew & U).
      apply update_grows in U; [exact U|].
      assert (Pw : 0 <= w).
      { unfold weight in Ew. destruct (num_ltb 0 tc) eqn:T.
        - apply num_ltb_lt, Qclt_le_weak in T.
          apply bind_Ok in Ew as (s' & G & Ew). injection Ew as <-.
          unfold Dict.get in G.
          destruct (Dict.find n grid) as [s0|] eqn:F; [|discriminate].
          injection G as <-. apply nonneg_div; [|exact T].
          apply (Hc n s0). now apply find_In.
        - injection Ew as <-. apply nonneg_div.
          + unfold Qcle. vm_compute. discriminate.
          + apply nonneg_of_nat. }
      intros s. unfold grows. cbn [add_mold mold camp food].
      split; [|split; apply Qcle_refl].
      apply le_plus_nonneg. now apply nonneg_mult.
    + intros [= <-]. apply related_refl, grows_refl.
  - eapply for_each_related; [apply grows_refl | apply grows_trans | | exact E].
    intros g item g' _. cbv beta.
    destruct (is_process_site FoodBehavior (snd item)) eqn:A.
    + cbn [is_process_site] in A. apply andb_true_iff in A as [A _].
      apply num_ltb_lt, Qclt_le_weak in A.
      assert (Pc : 0 <= food_consumption_rate CONFIG * mold (snd item))
        by now apply nonneg_mult.
      cbn [process_site]. intros P. apply bind_Ok in P as (g1 & U1 & U2).
      apply (related_trans _ grows_trans g g1 g').
      * apply update_grows in U1; [exact U1|].
        intros s. unfold grows. cbn [add_camp mold camp food].
        split; [apply Qcle_refl|]. split; [|apply Qcle_refl].
        apply le_plus_nonneg. now apply nonneg_mult.
      * apply update_grows in U2; [exact U2|].
        intros s. unfold grows. cbn [sub_food mold camp food].
        split; [apply Qcle_refl|]. split; [apply Qcle_refl|].
        now apply minus_nonneg_le.
    + intros [= <-]. apply related_refl, grows_refl.
  - destruct (camp_spread_Ok grid) as (nc & S & Wn & _ & V).
    rewrite S in E. cbn [bind] in E.
    eapply for_each_related; [apply grows_refl | apply grows_trans | | exact E].
    intros g [k v] g' I U. cbv beta in U. cbn [fst snd] in U.
    apply update_grows in U; [exact U|].
    assert (Pv : 0 <= v).
    { pose proof (In_find nc k v Wn I) as F.
      specialize (V k). unfold acc_val in V. rewrite F in V. rewrite V.
      apply qsum_nonneg. intros x Ix.
      apply in_map_iff in Ix as ([c s] & <- & Is).
      apply qsum_nonneg. intros y Iy.
      apply in_map_iff in Iy as (n & <- & _). cbn [snd].
      destruct (coord_eqb n k); [|apply Qcle_refl].
      apply outflow_nonneg. now apply (Hc c s). }
    intros s. unfold grows. cbn [add_camp mold camp food].
    split; [apply Qcle_refl|]. split; [|apply Qcle_refl].
    now apply le_plus_nonneg.
Qed.

(** X13: when no site of the current grid holds negative camp, the three
    rules applied in order only ever add to the mold and to the camp of an
    entry of the next grid and only ever take from its food: mold and camp
    of a zeroed next grid stay non-negative, food can only fall. *)
Theorem rules_add_mold_and_camp_take_food (grid next next' : Grid) :
  (forall c s, In (c, s) grid -> 0 <= camp s) ->
  apply_behaviors grid next = Ok next' ->
  forall c old, Dict.find c next = Some old ->
    exists new,
      Dict.find c next' = Some new
      /\ mold old <= mold new /\ camp old <= camp new /\ food new <= food old.
Proof.
  intros Hc E.
  assert (G : related grows next next').
  { unfold apply_behaviors in E.
    eapply for_each_related; [apply grows_refl | apply grows_trans | | exact E].
    intros g b g' _. now apply apply_grows. }
  intros c old F. specialize (G c). rewrite F in G.
  destruct (Dict.find c next') as [new|]; [|contradiction].
  exists new. split; [reflexivity | exact G].
Qed.

(** ** The state a step and a run leave behind *)


Lemma step_keeps_history (self : Simulation) :
  history (fst (step self)) = history self.
Proof.
  unfold step. cbn [current_grid history].
  destruct (bind _ _); reflexivity.
Qed.

Lemma run_loop_history (n : nat) (self : Simulation) :
  exists added,
    history (fst (run_loop n self)) = history self ++ added
    /\ (length added <= n)%nat
    /\ (n <> O -> exists rest, added = current_grid self :: rest)
    /\ (snd (run_loop n self) = Ok tt -> length added = n).
Proof.
  revert self. induction n as [|n IH]; intros self; cbn [run_loop].
  - exists []. rewrite app_nil_r. repeat split; auto. congruence.
  - set (self1 := {| current_grid := current_grid self;
                     history := history self ++ [current_grid self] |}).
    pose proof (step_keeps_history self1) as K.
    destruct (step self1) as [self2 [[]|e]]; cbn [fst] in K.
    + destruct (IH self2) as (added & H & L & _ & C).
      exists (current_grid self :: added). rewrite H, K.
      unfold self1. cbn [history]. rewrite <- app_assoc. cbn [app length].
      repeat split; [lia | eauto | intros R; rewrite (C R); reflexivity].
    + exists [current_grid self]. cbn [fst snd length]. rewrite K.
      unfold self1. cbn [history].
      repeat split; [lia | eauto | discriminate].
Qed.

(** X16: [run] never alters or drops a snapshot: the history after the call
    is the history before it followed by the new snapshots, at most [steps]
    of them and exactly [steps] when the run completes; the first new
    snapshot is the grid as it was before the call, and a run of zero or
    fewer steps changes nothing. *)
Theorem run_only_appends_snapshots (steps : Z) (self : Simulation) :
  exists added,
    history (fst (run steps self)) = history self ++ added
    /\ (length added <= Z.to_nat steps)%nat
    /\ ((0 < steps)%Z -> exists rest, added = current_grid self :: rest)
    /\ (snd (run steps self) = Ok tt -> length added = Z.to_nat steps)
    /\ ((steps <= 0)%Z -> run steps self = (self, Ok tt)).
Proof.
  unfold run. destruct (run_loop_history (Z.to_nat steps) self)
    as (added & H & L & F & C).
  exists added. split; [exact H|]. split; [exact L|].
  split; [intros P; apply F; lia|]. split; [exact C|].
  intros N. replace (Z.to_nat steps) with O by lia. reflexivity.
Qed.


(** ** Reading the expanded grid *)

(** X18: after [expand_grid] the sites a rule with an activation condition
    acts on (mold > 0) are the sites of the grid before the expansion, the
    new entries being empty, and all four neighbors of such a site are keys:
    the lookups [ranked_neighbors] makes in the expanded grid never
    raise. *)
Theorem expanded_grid_serves_all_reads (b : Behavior) (grid : Grid)
  (c : coord) (s : Site) :
  b <> CampBehavior ->
  Dict.wf grid ->
  In (c, s) (GridUtils.expand_grid grid) ->
  is_process_site b s = true ->
  Dict.find c grid = Some s
  /\ (forall n, In n (GridUtils.neighbors c) ->
                Dict.mem n (GridUtils.expand_grid grid) = true)
  /\ exists l, ranked_neighbors (GridUtils.expand_grid grid) c = Ok l
               /\ Permutation l (GridUtils.neighbors c).
Proof.
  intros Nb W I A.
  pose proof (active_in_expanded b grid c s Nb W I A) as F.
  assert (M : forall n, In n (GridUtils.neighbors c) ->
                        Dict.mem n (GridUtils.expand_grid grid) = true).
  { intros n In'. apply mem_expand_grid. exists c. split; [|exact In'].
    apply mem_keys, mem_find. eauto. }
  split; [exact F|]. split; [exact M|].
  now apply ranked_neighbors_Ok.
Qed.

(** ** The sites a rule acts on *)

Lemma apply_filter_active (b : Behavior) (grid items next : Grid) :
  for_each
    (fun nx item =>
       if is_process_site b (snd item)
       then process_site b grid nx (fst item) (snd item)
       else Ok nx)
    items next
  = for_each
      (fun nx item => process_site b grid nx (fst item) (snd item))
      (filter (fun item => is_process_site b (snd item)) items) next.
Proof.
  revert next. induction items as [|item items IH]; intros next;
    cbn [for_each filter]; [reflexivity|].
  destruct (is_process_site b (snd item)); cbn [for_each bind].
  - destruct (process_site b grid next (fst item) (snd item)) as [n1|e];
      cbn [bind]; [apply IH | reflexivity].
  - apply IH.
Qed.

(** X19: [MoldBehavior.apply] and [FoodBehavior.apply] run
    [process_site], in the order of the grid, on the sites that meet the
    activation condition and on no others: a site with zero or negative
    mold is skipped, its mold is neither moved nor kept, and on a grid no
    site of which is active the rule completes, whatever keys the two grids
    hold, and leaves the next grid as it was. *)
Theorem apply_skips_inactive_sites (b : Behavior) (grid next : Grid) :
  b <> CampBehavior ->
  apply b grid next
  = for_each
      (fun nx item => process_site b grid nx (fst item) (snd item))
      (filter (fun item => is_process_site b (snd item)) grid) next
  /\ ((forall c s, In (c, s) grid -> mold s <= 0) ->
      apply b grid next = Ok next).
Proof.
  intros Nb.
  assert (E : apply b grid next
              = for_each
                  (fun nx item => process_site b grid nx (fst item) (snd item))
                  (filter (fun item => is_process_site b (snd item)) grid)
                  next).
  { destruct b; [| |congruence]; cbn [apply]; apply apply_filter_active. }
  split; [exact E|].
  intros H. rewrite E.
  replace (filter (fun item => is_process_site b (snd item)) grid)
    with (@nil (coord * Site)); [reflexivity|].
  symmetry. clear E. induction grid as [|[c s] grid IH]; cbn [filter snd];
    [reflexivity|].
  assert (A : is_process_site b s = false).
  { assert (M : num_ltb 0 (mold s) = false).
    { destruct (num_ltb 0 (mold s)) eqn:L; [|reflexivity].
      apply num_ltb_lt in L. exfalso.
      apply (Qclt_not_le _ _ L). apply (H c s). now left. }
    destruct b; cbn [is_process_site]; [exact M | now rewrite M | congruence]. }
  rewrite A. apply IH. intros c' s' I. apply (H c' s'). now right.
Qed.

(** ** Steps that complete *)

(** X21: [step] completes exactly when the current grid is empty, and then
    it leaves the simulation as it was. *)
Theorem step_completes_iff_empty (self : Simulation) :
  (snd (step self) = Ok tt <-> current_grid self = [])
  /\ (current_grid self = [] -> step self = (self, Ok tt)).
Proof.
  assert (E : current_grid self = [] -> step self = (self, Ok tt)).
  { destruct self as [g h]. cbn [current_grid]. now intros ->. }
  split; [split|exact E].
  - intros R. destruct (current_grid self) as [|item g] eqn:G; [reflexivity|].
    destruct (step_raises_KeyError self) as [k K]; [rewrite G; discriminate|].
    congruence.
  - intros G. now rewrite (E G).
Qed.

(** ** Instances of the further properties *)

Definition half_empty_grid : Grid :=
  [((0, 0)%Z, zero_site); ((1, 0)%Z, seed_site)].


(** X2 on a grid with one empty and one occupied site. *)
Lemma prune_is_idempotent_witness :
  Dict.wf half_empty_grid
  /\ exists pruned,
       GridUtils.prune_empty_sites half_empty_grid = Ok pruned
       /\ GridUtils.prune_empty_sites pruned = Ok pruned.
Proof.
  assert (W : Dict.wf half_empty_grid) by concrete_wf.
  split; [exact W|].
  destruct (prune_is_idempotent half_empty_grid W) as (p & A & _ & _ & B & _).
  exists p. split; assumption.
Defined.

(** X3 on the seed grid. *)
Lemma prune_undoes_expand_witness :
  Dict.wf initialize_grid
  /\ (forall c s, In (c, s) initialize_grid -> all_zero s = false)
  /\ GridUtils.prune_empty_sites (GridUtils.expand_grid initialize_grid)
     = Ok initialize_grid.
Proof.
  assert (W : Dict.wf initialize_grid) by concrete_wf.
  assert (H : forall c s, In (c, s) initialize_grid -> all_zero s = false).
  { intros c s I. cbn in I. destruct I as [I|[]]. injection I as <- <-.
    vm_compute. reflexivity. }
  split; [exact W|]. split; [exact H|].
  exact (prune_undoes_expand initialize_grid W H).
Defined.

(** X5 at the origin of the grid whose neighbors hold camp 1, 2, 3, 4. *)
Lemma ranked_neighbors_sorted_witness :
  (forall n, In n (GridUtils.neighbors (0, 0)%Z) ->
             Dict.mem n signal_grid = true)
  /\ exists l,
       ranked_neighbors signal_grid (0, 0)%Z = Ok l
       /\ StronglySorted (ranks_before signal_grid) l.
Proof.
  split; [exact signal_grid_neighbors|].
  destruct (ranked_neighbors_sorted signal_grid (0, 0)%Z signal_grid_neighbors)
    as (l & R & _ & S).
  exists l. split; assumption.
Defined.

Lemma signal_next_neighbors (n : coord) :
  In n (GridUtils.neighbors (0, 0)%Z) ->
  Dict.mem n (fresh_next_grid signal_grid) = true.
Proof. intros I. each_neighbor I; reflexivity. Defined.

(** X7 at the origin of the grid whose neighbors hold camp 1, 2, 3, 4. *)
Lemma mold_share_per_neighbor_witness :
  exists l next',
    ranked_neighbors signal_grid (0, 0)%Z = Ok l
    /\ process_site MoldBehavior signal_grid (fresh_next_grid signal_grid)
         (0, 0)%Z seed_site = Ok next'
    /\ forall k, ~ In k (GridUtils.neighbors (0, 0)%Z) ->
         Dict.find k next' = Dict.find k (fresh_next_grid signal_grid).
Proof.
  destruct (mold_share_per_neighbor signal_grid (fresh_next_grid signal_grid)
              (0, 0)%Z seed_site signal_grid_neighbors signal_next_neighbors)
    as (l & next' & R & _ & E & _ & F).
  exists l, next'. repeat split; assumption.
Defined.


(** X12 for the Food rule on the expanded seed grid. *)
Lemma behaviors_write_their_fields_only_witness :
  exists next',
    apply FoodBehavior star_grid (fresh_next_grid star_grid) = Ok next'
    /\ Dict.keys next' = Dict.keys (fresh_next_grid star_grid).
Proof.
  destruct (apply FoodBehavior star_grid (fresh_next_grid star_grid))
    as [next'|e] eqn:R; [|vm_compute in R; discriminate].
  exists next'. split; [reflexivity|].
  exact (proj1 (behaviors_write_their_fields_only FoodBehavior star_grid
                  (fresh_next_grid star_grid) next' R)).
Defined.

Lemma star_grid_camp_nonneg (c : coord) (s : Site) :
  In (c, s) star_grid -> 0 <= camp s.
Proof.
  intros I. cbn in I.
  repeat (destruct I as [I|I]; [injection I as <- <-; num_lt|]).
  contradiction.
Defined.

(** X13 for the three rules on the expanded seed grid. *)
Lemma rules_add_mold_and_camp_take_food_witness :
  (forall c s, In (c, s) star_grid -> 0 <= camp s)
  /\ exists next',
       apply_behaviors star_grid seed_next_grid = Ok next'
       /\ forall c old, Dict.find c seed_next_grid = Some old ->
            exists new,
              Dict.find c next' = Some new
              /\ mold old <= mold new /\ camp old <= camp new
              /\ food new <= food old.
Proof.
  split; [exact star_grid_camp_nonneg|].
  destruct (apply_behaviors star_grid seed_next_grid) as [next'|e] eqn:R;
    [|vm_compute in R; discriminate].
  exists next'. split; [reflexivity|].
  exact (rules_add_mold_and_camp_take_food star_grid seed_next_grid next'
           star_grid_camp_nonneg R).
Defined.




(** X18 for the Mold rule at the origin of the expanded seed grid. *)
Lemma expanded_grid_serves_all_reads_witness :
  Dict.wf initialize_grid
  /\ In ((0, 0)%Z, seed_site) (GridUtils.expand_grid initialize_grid)
  /\ is_process_site MoldBehavior seed_site = true
  /\ exists l,
       ranked_neighbors (GridUtils.expand_grid initialize_grid) (0, 0)%Z = Ok l
       /\ Permutation l (GridUtils.neighbors (0, 0)%Z).
Proof.
  assert (W : Dict.wf initialize_grid) by concrete_wf.
  assert (I : In ((0, 0)%Z, seed_site) (GridUtils.expand_grid initialize_grid))
    by (left; reflexivity).
  assert (A : is_process_site MoldBehavior seed_site = true)
    by (vm_compute; reflexivity).
  assert (Nb : MoldBehavior <> CampBehavior) by discriminate.
  split; [exact W|]. split; [exact I|]. split; [exact A|].
  exact (proj2 (proj2 (expanded_grid_serves_all_reads MoldBehavior
                         initialize_grid (0, 0)%Z seed_site Nb W I A))).
Defined.

(** X19 for the Mold rule on a grid whose only site holds negative mold. *)
Lemma apply_skips_inactive_sites_witness :
  MoldBehavior <> CampBehavior
  /\ apply MoldBehavior [((0, 0)%Z, mkSite (- num_of_Z 1) 0 0 0)] []
     = Ok [].
Proof.
  assert (Nb : MoldBehavior <> CampBehavior) by discriminate.
  split; [exact Nb|].
  apply (proj2 (apply_skips_inactive_sites MoldBehavior
                  [((0, 0)%Z, mkSite (- num_of_Z 1) 0 0 0)] [] Nb)).
  intros c s [I|[]]. injection I as <- <-. num_lt.
Defined.

(** * The Camp rule and the end of a step *)

(** ** What the Camp rule adds to an entry, and the camp after the rules *)

(** [item] has [c] among its four neighbors: its signal reaches [c]. *)
Definition sends_to (c : coord) (item : coord * Site) : bool :=
  existsb (fun n => coord_eqb n c) (GridUtils.neighbors (fst item)).

(** The sites whose signal reaches [c], in the order of the grid. *)
Definition senders (grid : Grid) (c : coord) : Grid :=
  filter (sends_to c) grid.

(** [new_camp[c]] after the first loop of [CampBehavior.apply]: the quarter
    shares of the senders, added up in the order of the grid. *)
Definition received (grid : Grid) (c : coord) : number :=
  fold_left Qcplus (map (fun item => outflow (snd item)) (senders grid c)) 0.

Lemma neighbors_sym (c k : coord) :
  In c (GridUtils.neighbors k) -> In k (GridUtils.neighbors c).
Proof.
  destruct c as [cx cy], k as [kx ky]. cbn.
  intros [H|[H|[H|[H|[]]]]]; injection H as <- <-.
  - right. left. f_equal; lia.
  - left. f_equal; lia.
  - right. right. right. left. f_equal; lia.
  - right. right. left. f_equal; lia.
Qed.

Lemma sends_to_neighbor (c : coord) (item : coord * Site) :
  sends_to c item = true <-> In (fst item) (GridUtils.neighbors c).
Proof.
  unfold sends_to. rewrite existsb_exists. split.
  - intros (n & I & E). apply coord_eqb_eq in E. subst n.
    now apply neighbors_sym.
  - intros I. exists c. split; [now apply neighbors_sym | apply coord_eqb_refl].
Qed.

Lemma In_senders (grid : Grid) (c k : coord) (s : Site) :
  In (k, s) (senders grid c)
  <-> In (k, s) grid /\ In k (GridUtils.neighbors c).
Proof.
  unfold senders. rewrite filter_In, sends_to_neighbor. reflexivity.
Qed.

Lemma qsum_once (k : coord) (x : number) (l : list coord) :
  NoDup l ->
  qsum (map (fun n => if coord_eqb n k then x else 0) l)
  = if existsb (fun n => coord_eqb n k) l then x else 0.
Proof.
  induction l as [|n l IH]; intros N; cbn [map existsb]; [reflexivity|].
  inversion N as [|? ? N0 N1]; subst. rewrite qsum_cons.
  destruct (coord_eqb n k) eqn:E; cbn [orb].
  - apply coord_eqb_eq in E. subst n. rewrite qsum_map_zero; [ring|].
    intros m I. destruct (coord_eqb m k) eqn:E; [|reflexivity].
    apply coord_eqb_eq in E. subst m. contradiction.
  - rewrite (IH N1). ring.
Qed.

Lemma qsum_filter {A : Type} (p : A -> bool) (f : A -> number) (l : list A) :
  qsum (map (fun a => if p a then f a else 0) l) = qsum (map f (filter p l)).
Proof.
  induction l as [|a l IH]; cbn [map filter]; [reflexivity|].
  rewrite qsum_cons, IH. destruct (p a); cbn [map].
  - now rewrite qsum_cons.
  - ring.
Qed.

Lemma spread_is_received (grid : Grid) (k : coord) :
  qsum (map (fun item =>
               qsum (map (fun n => if coord_eqb n k
                                   then outflow (snd item) else 0)
                       (GridUtils.neighbors (fst item)))) grid)
  = received grid k.
Proof.
  unfold received, senders. rewrite fold_left_qsum.
  rewrite <- (qsum_filter (sends_to k) (fun item => outflow (snd item))).
  rewrite Qcplus_0_l. f_equal. apply map_ext. intros item.
  apply qsum_once, neighbors_NoDup.
Qed.

(** The Camp rule completes when the next grid holds the neighbors of every
    key of the grid, and adds to every entry what its senders send. *)
Lemma apply_camp_received (grid next : Grid) :
  (forall k n, In k (Dict.keys grid) -> In n (GridUtils.neighbors k) ->
               Dict.mem n next = true) ->
  exists next',
    apply CampBehavior grid next = Ok next'
    /\ forall c,
         Dict.find c next'
         = option_map (add_camp (received grid c)) (Dict.find c next).
Proof.
  intros H. cbn [apply].
  destruct (camp_spread_Ok grid) as (nc & E & Wn & M & V).
  rewrite E. cbn [bind].
  destruct (updates_Ok fst (fun item => add_camp (snd item)) nc next)
    as (next' & U & _ & F).
  { intros [k v] I. cbn [fst].
    assert (B : borders grid k).
    { apply M, mem_keys. change k with (fst (k, v)). now apply in_map. }
    destruct B as (k0 & I0 & In'). exact (H k0 k I0 In'). }
  exists next'. split; [exact U|].
  intros c. rewrite F. destruct (Dict.find c next) as [s|]; [|reflexivity].
  cbn [option_map]. rewrite (effect_commit _ _ _ Wn), V.
  now rewrite spread_is_received.
Qed.

Lemma apply_camp_inv (grid next next' : Grid) :
  apply CampBehavior grid next = Ok next' ->
  forall k n, In k (Dict.keys grid) -> In n (GridUtils.neighbors k) ->
              Dict.mem n next = true.
Proof.
  cbn [apply]. destruct (camp_spread_Ok grid) as (nc & -> & _ & M & _).
  cbn [bind]. intros U k n Ik In'.
  apply (updates_keys fst) in U as [_ U].
  assert (B : Dict.mem n nc = true) by (apply M; exists k; auto).
  apply mem_find in B as [v B]. apply find_In in B.
  exact (U (n, v) B).
Qed.

Lemma received_nothing (grid : Grid) (c : coord) :
  Dict.wf grid ->
  (forall n sn, In n (GridUtils.neighbors c) ->
                Dict.find n grid = Some sn -> camp sn = 0) ->
  received grid c = 0.
Proof.
  intros W Z. unfold received. rewrite fold_left_qsum, qsum_map_zero; [ring|].
  intros [k s] I. apply In_senders in I as [I N]. cbn [snd].
  unfold outflow. rewrite (Z k s N (In_find _ _ _ W I)). ring.
Qed.

(** What the Food rule adds to the camp stored under [c]. *)
Definition food_signal (grid : Grid) (c : coord) : number :=
  match Dict.find c grid with
  | Some s =>
      if is_process_site FoodBehavior s
      then food_consumption_rate CONFIG * mold s * amplification_factor CONFIG
      else 0
  | None => 0
  end.

Lemma camp_food_effect (grid : Grid) (c : coord) (n : Site) :
  camp (food_effect grid c n) = camp n + food_signal grid c.
Proof.
  unfold food_effect, food_signal. destruct (Dict.find c grid) as [s|].
  - destruct (is_process_site FoodBehavior s); cbn [food_write camp]; ring.
  - ring.
Qed.

(** The camp of an entry after the three rules, when none of the neighbors
    of its coordinate holds camp. *)
Lemma camp_after_rules (grid next0 next3 : Grid) (c : coord) (old : Site) :
  Dict.wf grid ->
  apply_behaviors grid next0 = Ok next3 ->
  (forall n sn, In n (GridUtils.neighbors c) ->
                Dict.find n grid = Some sn -> camp sn = 0) ->
  Dict.find c next0 = Some old ->
  exists new,
    Dict.find c next3 = Some new
    /\ camp new = camp old + food_signal grid c.
Proof.
  intros W E Z F0. unfold apply_behaviors, behaviors in E. cbn [for_each] in E.
  apply bind_Ok in E as (n1 & E1 & E).
  apply bind_Ok in E as (n2 & E2 & E).
  apply bind_Ok in E as (n3 & E3 & E). injection E as <-.
  pose proof (apply_untouched MoldBehavior grid next0 n1 E1 c) as U1.
  rewrite F0 in U1. destruct (Dict.find c n1) as [s1|] eqn:F1; [|contradiction].
  destruct U1 as (_ & _ & C1).
  assert (H2 := apply_food_items_inv grid grid n1 n2 E2).
  destruct (apply_food_items grid grid n1 W H2) as (n2' & E2' & F2).
  cbn [apply] in E2. rewrite E2 in E2'. injection E2' as <-.
  destruct (apply_camp_received grid n2 (apply_camp_inv grid n2 n3 E3))
    as (n3' & E3' & F3).
  rewrite E3 in E3'. injection E3' as <-.
  exists (food_effect grid c s1). split.
  - rewrite F3, F2, F1. cbn [option_map].
    rewrite (received_nothing grid c W Z), add_camp_0. reflexivity.
  - rewrite camp_food_effect, C1. reflexivity.
Qed.

(** C6 (what the Camp rule does): when the next grid holds the neighbors of
    every key of the grid, [CampBehavior.apply] completes and adds to the
    camp of every entry the quarter shares [camp * (1 - camp_decay) * 0.25]
    of its senders, accumulated in the order of the grid.  The senders of a
    coordinate are the sites stored at its four neighbors, never the site
    stored at the coordinate itself.  When no neighbor holds camp, the Camp
    rule leaves the entry as it was; the camp the entry holds after the
    three rules is then the camp it held before plus what the Food rule
    added there, [food_consumption_rate * mold * amplification_factor] at a
    site with [mold > 0] and [food >= food_consumption_rate], and nothing
    elsewhere. *)
Theorem camp_rule_adds_neighbor_signal (grid next : Grid) :
  Dict.wf grid ->
  (forall k n, In k (Dict.keys grid) -> In n (GridUtils.neighbors k) ->
               Dict.mem n next = true) ->
  (exists next',
     apply CampBehavior grid next = Ok next'
     /\ (forall c,
           Dict.find c next'
           = option_map (add_camp (received grid c)) (Dict.find c next))
     /\ (forall c,
           (forall n sn, In n (GridUtils.neighbors c) ->
                         Dict.find n grid = Some sn -> camp sn = 0) ->
           Dict.find c next' = Dict.find c next))
  /\ (forall c k s,
        In (k, s) (senders grid c)
        <-> In (k, s) grid /\ In k (GridUtils.neighbors c))
  /\ (forall c s, ~ In (c, s) (senders grid c))
  /\ (forall next0 next3 c old,
        apply_behaviors grid next0 = Ok next3 ->
        (forall n sn, In n (GridUtils.neighbors c) ->
                      Dict.find n grid = Some sn -> camp sn = 0) ->
        Dict.find c next0 = Some old ->
        exists new,
          Dict.find c next3 = Some new
          /\ camp new
             = camp old
               + match Dict.find c grid with
                 | Some s =>
                     if is_process_site FoodBehavior s
                     then food_consumption_rate CONFIG * mold s
                          * amplification_factor CONFIG
                     else 0
                 | None => 0
                 end).
Proof.
  intros W H. split; [|split; [|split]].
  - destruct (apply_camp_received grid next H) as (next' & E & F).
    exists next'. split; [exact E|]. split; [exact F|].
    intros c Z. rewrite F, (received_nothing grid c W Z).
    destruct (Dict.find c next) as [s|]; [|reflexivity].
    cbn [option_map]. now rewrite add_camp_0.
  - intros c k s. apply In_senders.
  - intros c s I. apply In_senders in I as [_ I].
    exact (neighbors_irrefl c I).
  - intros next0 next3 c old E Z F0.
    exact (camp_after_rules grid next0 next3 c old W E Z F0).
Qed.

(** C6 on the grid whose neighbors of the origin hold camp 1, 2, 3 and 4:
    the origin receives (1 + 2 + 3 + 4) * 0.9 * 0.25. *)
Lemma camp_rule_adds_neighbor_signal_witness :
  Dict.wf signal_grid
  /\ (forall k n, In k (Dict.keys signal_grid) ->
        In n (GridUtils.neighbors k) ->
        Dict.mem n (fresh_next_grid (GridUtils.expand_grid signal_grid)) = true)
  /\ exists next',
       apply CampBehavior signal_grid
         (fresh_next_grid (GridUtils.expand_grid signal_grid)) = Ok next'
       /\ Dict.find (0, 0)%Z next'
          = Some (add_camp (received signal_grid (0, 0)%Z) zero_site)
       /\ received signal_grid (0, 0)%Z = num_frac 9 4.
Proof.
  assert (W : Dict.wf signal_grid) by concrete_wf.
  assert (H : forall k n, In k (Dict.keys signal_grid) ->
                In n (GridUtils.neighbors k) ->
                Dict.mem n (fresh_next_grid (GridUtils.expand_grid signal_grid))
                = true).
  { intros k n Ik In'. rewrite mem_fresh_next_grid. apply mem_expand_grid.
    exists k. split; assumption. }
  split; [exact W|]. split; [exact H|].
  destruct (proj1 (camp_rule_adds_neighbor_signal signal_grid
                     (fresh_next_grid (GridUtils.expand_grid signal_grid)) W H))
    as (next' & E & F & _).
  exists next'. split; [exact E|]. split; [rewrite F; reflexivity|]. num_eq.
Defined.

(** C6 as the specification has it does not hold: on the expanded seed grid
    no neighbor of the origin holds camp, so the origin receives no incoming
    contribution, and yet after the three rules it holds camp 15, which the
    Food rule has written. *)
Lemma camp_without_inflow_counterexample :
  exists next s,
    apply_behaviors (GridUtils.expand_grid initialize_grid) seed_next_grid
    = Ok next
    /\ (forall n sn, In n (GridUtils.neighbors (0, 0)%Z) ->
          Dict.find n (GridUtils.expand_grid initialize_grid) = Some sn ->
          camp sn = 0)
    /\ received (GridUtils.expand_grid initialize_grid) (0, 0)%Z = 0
    /\ Dict.find (0, 0)%Z next = Some s
    /\ camp s = num_of_Z 15
    /\ camp s <> 0.
Proof.
  eexists. eexists.
  split; [vm_compute; reflexivity|].
  split.
  { intros n sn I. each_neighbor I; intros [= <-]; reflexivity. }
  split; [num_eq|].
  split; [vm_compute; reflexivity|]. cbn [camp].
  split; [num_eq|].
  intros H. apply (f_equal this) in H. vm_compute in H. discriminate.
Qed.

(** ** Pruning at the end of a step *)







(** * The Mold rule in the arithmetic of the code *)

From Stdlib Require Import Floats.

(** The theorems above compute with exact rationals.  Python evaluates the
    weights and the shares of [MoldBehavior] in binary64, where a quotient
    and a product are rounded.  [B64] is [MoldBehavior] once more, with the
    same dictionaries and the same control flow, over the binary64 numbers
    of the kernel; it runs the rule on concrete grids. *)

Module B64.

Record Site : Type := mkSite {
  mold : float;
  food : float;
  camp : float;
  refractory : float
}.

Definition Grid : Type := Dict.t Site.

Definition zero_site : Site :=
  {| mold := 0%float; food := 0%float; camp := 0%float;
     refractory := 0%float |}.

(** [float(len(l))] *)
Definition num_of_nat (n : nat) : float :=
  PrimFloat.of_uint63 (Uint63Axioms.of_Z (Z.of_nat n)).

Definition update (k : coord) (f : Site -> Site) (g : Grid) : result Grid :=
  state <- Dict.get k g ;; Ok (Dict.set k (f state) g).

Definition add_mold (x : float) (s : Site) : Site :=
  {| mold := (mold s + x)%float; food := food s; camp := camp s;
     refractory := refractory s |}.

Definition rank_key (grid : Grid) (neighbor : coord) : result (float * float) :=
  s <- Dict.get neighbor grid ;; Ok ((- camp s)%float, mold s).

Definition key_ltb (a b : float * float) : bool :=
  if (fst a =? fst b)%float then (snd a <? snd b)%float
  else (fst a <? fst b)%float.

Fixpoint insert_ranked (x : (float * float) * coord)
  (l : list ((float * float) * coord)) : list ((float * float) * coord) :=
  match l with
  | [] => [x]
  | y :: l' =>
      if key_ltb (fst y) (fst x) then y :: insert_ranked x l' else x :: l
  end.

Definition sorted_by_key (l : list ((float * float) * coord)) : list coord :=
  map snd (fold_right insert_ranked [] l).

Definition ranked_neighbors (grid : Grid) (c : coord) : result (list coord) :=
  keyed <- map_result (fun n => k <- rank_key grid n ;; Ok (k, n))
             (GridUtils.neighbors c) ;;
  Ok (sorted_by_key keyed).

(** [sum(...)]: the terms are added from the left, starting from 0. *)
Definition sum (l : list float) : float := fold_left PrimFloat.add l 0%float.

Definition total_camp_of (grid : Grid) (neighbors : list coord) : result float :=
  camps <- map_result (fun n => s <- Dict.get n grid ;; Ok (camp s)) neighbors ;;
  Ok (sum camps).

Definition weight (grid : Grid) (total_camp : float) (neighbors : list coord)
  (neighbor : coord) : result float :=
  if (0 <? total_camp)%float
  then s <- Dict.get neighbor grid ;; Ok (camp s / total_camp)%float
  else Ok (1 / num_of_nat (length neighbors))%float.

(** [MoldBehavior.is_process_site] *)
Definition is_process_site (state : Site) : bool := (0 <? mold state)%float.

(** [MoldBehavior.process_site] *)
Definition process_site (grid next_grid : Grid) (c : coord) (state : Site)
  : result Grid :=
  let total_mold := mold state in
  neighbors <- ranked_neighbors grid c ;;
  total_camp <- total_camp_of grid neighbors ;;
  for_each
    (fun next neighbor =>
       w <- weight grid total_camp neighbors neighbor ;;
       update neighbor (add_mold (total_mold * w)%float) next)
    neighbors next_grid.

(** [MoldBehavior.apply], inherited from [Behavior]. *)
Definition apply (grid next_grid : Grid) : result Grid :=
  for_each
    (fun next item =>
       if is_process_site (snd item)
       then process_site grid next (fst item) (snd item)
       else Ok next)
    grid next_grid.

Definition fresh_next_grid (grid : Grid) : Grid :=
  map (fun item => (fst item, zero_site)) grid.

(** The mold fields of a grid, in the order of its keys. *)
Definition molds (g : Grid) : list float := map (fun item => mold (snd item)) g.

(** The rational number a finite binary64 number stands for. *)
Definition exact (x : float) : Q :=
  match Prim2SF x with
  | S754_finite s m e =>
      ((if s then - inject_Z (Zpos m) else inject_Z (Zpos m))
       * Qpower (2 # 1) e)%Q
  | _ => 0%Q
  end.

(** The sum of binary64 numbers, without rounding. *)
Definition exact_sum (l : list float) : Q :=
  fold_right Qplus 0%Q (map exact l).

End B64.

(** A site with mold 100 whose neighbors hold camp 1, 1, 2 and 2. *)
Definition rounding_grid : B64.Grid :=
  [((0, 0)%Z, B64.mkSite 100 0 0 0);
   ((-1, 0)%Z, B64.mkSite 0 0 1 0);
   ((1, 0)%Z, B64.mkSite 0 0 1 0);
   ((0, -1)%Z, B64.mkSite 0 0 2 0);
   ((0, 1)%Z, B64.mkSite 0 0 2 0)]%float.


(** The seed surrounded by zeroed neighbors, next to a site that holds
    mold -1. *)
Definition debt_grid : Grid :=
  star_grid ++ [((5, 5)%Z, mkSite (- num_of_Z 1) 0 0 0)].

(** The same grid in binary64. *)
Definition debt_grid_b64 : B64.Grid :=
  [((0, 0)%Z, B64.mkSite 100 5 0 0);
   ((-1, 0)%Z, B64.zero_site); ((1, 0)%Z, B64.zero_site);
   ((0, -1)%Z, B64.zero_site); ((0, 1)%Z, B64.zero_site);
   ((5, 5)%Z, B64.mkSite (-1) 0 0 0)]%float.

(** C4 as the specification has it does not hold of the code: at a site
    with mold 100 whose neighbors hold camp 1, 1, 2 and 2 the weights are
    the binary64 numbers next to 1/3, 1/3, 1/6 and 1/6; their sum is below
    1, and the four amounts add up to less than 100, whether the sums are
    formed in binary64 or without rounding. *)
Lemma mold_shares_rounding_counterexample :
  exists l total_camp ws,
    B64.ranked_neighbors rounding_grid (0, 0)%Z = Ok l
    /\ B64.total_camp_of rounding_grid l = Ok total_camp
    /\ (0 <? total_camp)%float = true
    /\ map_result (B64.weight rounding_grid total_camp l) l = Ok ws
    /\ (B64.sum ws <? 1)%float = true
    /\ (B64.exact_sum ws < 1)%Q
    /\ (B64.sum (map (PrimFloat.mul 100) ws) <? 100)%float = true
    /\ (B64.exact_sum (map (PrimFloat.mul 100) ws) < 100)%Q.
Proof.
  eexists. eexists. eexists.
  split; [vm_compute; reflexivity|].
  split; [vm_compute; reflexivity|].
  split; [vm_compute; reflexivity|].
  split; [vm_compute; reflexivity|].
  split; [vm_compute; reflexivity|].
  split; [unfold Qlt; vm_compute; reflexivity|].
  split; [vm_compute; reflexivity|].
  unfold Qlt; vm_compute; reflexivity.
Qed.

(** C10 as the specification has it does not hold of the code.  A site with
    negative mold is skipped, so its mold does not reach the next grid: on
    [debt_grid] the total is 99 before and 100 after, in exact arithmetic
    and in binary64.  And the shares are rounded: on [rounding_grid], whose
    mold is 100, the next grid holds less than 100. *)
Lemma mold_not_conserved_counterexample :
  (forall c s, In (c, s) debt_grid -> 0 < mold s ->
     forall n, In n (GridUtils.neighbors c) ->
       Dict.mem n debt_grid = true
       /\ Dict.mem n (fresh_next_grid debt_grid) = true)
  /\ (exists next',
        apply MoldBehavior debt_grid (fresh_next_grid debt_grid) = Ok next'
        /\ total_mold debt_grid = num_of_Z 99
        /\ total_mold next' = num_of_Z 100
        /\ total_mold next' <> total_mold debt_grid)
  /\ (exists next',
        B64.apply debt_grid_b64 (B64.fresh_next_grid debt_grid_b64) = Ok next'
        /\ B64.sum (B64.molds debt_grid_b64) = 99%float
        /\ B64.sum (B64.molds next') = 100%float)
  /\ (exists next',
        B64.apply rounding_grid (B64.fresh_next_grid rounding_grid) = Ok next'
        /\ B64.sum (B64.molds rounding_grid) = 100%float
        /\ (B64.sum (B64.molds next') <? 100)%float = true
        /\ (B64.exact_sum (B64.molds next') < 100)%Q).
Proof.
  split.
  { intros c s I L n In'. cbn in I.
    destruct I as [I|I].
    - injection I as <- <-. each_neighbor In'; split; reflexivity.
    - exfalso. revert L.
      repeat (destruct I as [I|I];
              [injection I as <- <-; unfold Qclt; vm_compute; discriminate|]).
      contradiction. }
  split.
  { eexists. split; [vm_compute; reflexivity|].
    split; [num_eq|]. split; [num_eq|].
    intros H. apply (f_equal this) in H. vm_compute in H. discriminate. }
  split.
  { eexists. split; [vm_compute; reflexivity|].
    split; vm_compute; reflexivity. }
  eexists. split; [vm_compute; reflexivity|].
  split; [vm_compute; reflexivity|].
  split; [vm_compute; reflexivity|].
  unfold Qlt; vm_compute; reflexivity.
Qed.

Lemma uniform_weight_b64 (g : B64.Grid) (total_camp : float) (l : list coord)
  (n : coord) :
  (0 <? total_camp)%float = false -> length l = 4%nat ->
  B64.weight g total_camp l n = Ok 0.25%float.
Proof. intros Z L. unfold B64.weight. rewrite Z, L. reflexivity. Qed.

(** C4 (without rounding, and the uniform weights in binary64): for a
    source site with [mold > 0] whose four neighbors are keys of the grid,
    the weights [MoldBehavior.process_site] computes are [camp / total_camp]
    for each neighbor when the camp total is positive and 1/4 otherwise;
    taken as exact quotients they sum to 1, and the amounts [mold * weight]
    sum to the mold of the source site, which is what the writes add to the
    total mold of the next grid.  In binary64 the uniform weight is exactly
    0.25 and the four of them sum to exactly 1; the camp-proportional
    weights are rounded quotients. *)
Theorem mold_shares_sum_without_rounding (grid : Grid) (c : coord) (s : Site) :
  0 < mold s ->
  (forall n, In n (GridUtils.neighbors c) -> Dict.mem n grid = true) ->
  (exists l total_camp ws,
     ranked_neighbors grid c = Ok l
     /\ Permutation l (GridUtils.neighbors c)
     /\ total_camp_of grid l = Ok total_camp
     /\ map_result (weight grid total_camp l) l = Ok ws
     /\ ws = map (fun n => if num_ltb 0 total_camp
                           then camp (site_at grid n) / total_camp
                           else 1 / num_of_Z 4) l
     /\ qsum ws = 1
     /\ qsum (map (Qcmult (mold s)) ws) = mold s
     /\ forall next,
          (forall n, In n (GridUtils.neighbors c) -> Dict.mem n next = true) ->
          exists next',
            process_site MoldBehavior grid next c s = Ok next'
            /\ total_mold next' = total_mold next + mold s)
  /\ (forall (g : B64.Grid) (total_camp : float) (l : list coord) (n : coord),
        (0 <? total_camp)%float = false -> length l = 4%nat ->
        B64.weight g total_camp l n = Ok 0.25%float)
  /\ B64.sum [0.25; 0.25; 0.25; 0.25]%float = 1%float
  /\ (B64.exact_sum [0.25; 0.25; 0.25; 0.25]%float == 1)%Q.
Proof.
  intros P Hg. split; [exact (mold_shares_exact grid c s P Hg)|].
  split; [exact uniform_weight_b64|].
  split; [vm_compute; reflexivity|].
  vm_compute. reflexivity.
Qed.

(** C4 at a site whose neighbors hold camp 1, 2, 3 and 4. *)
Lemma mold_shares_sum_without_rounding_witness :
  0 < mold seed_site
  /\ (forall n, In n (GridUtils.neighbors (0, 0)%Z) ->
                Dict.mem n signal_grid = true)
  /\ exists l total_camp ws,
       ranked_neighbors signal_grid (0, 0)%Z = Ok l
       /\ total_camp_of signal_grid l = Ok total_camp
       /\ map_result (weight signal_grid total_camp l) l = Ok ws
       /\ qsum ws = 1
       /\ qsum (map (Qcmult (mold seed_site)) ws) = mold seed_site.
Proof.
  assert (P : 0 < mold seed_site) by num_lt.
  split; [exact P|]. split; [exact signal_grid_neighbors|].
  destruct (proj1 (mold_shares_sum_without_rounding signal_grid (0, 0)%Z
                     seed_site P signal_grid_neighbors))
    as (l & tc & ws & R & _ & T & M & _ & S1 & S2 & _).
  exists l, tc, ws. repeat split; assumption.
Defined.
